(** * EV / solar financial calculator: the financial engine

    A shallow embedding of the numeric core of
    [src/components/ui/FinancialCalculator.tsx]: the discounting engine
    ([calculateNPV]), the IRR solver ([calculateIRR]), the payback calculator
    ([calculatePaybackPeriod]), the amortization formula
    ([calculateLoanPayment]), the depreciation table ([macrsSchedule]) and the
    [financialMetrics] aggregator with its per-year cash-flow records.

    Numbers.  A JavaScript [number] is modelled as an exact rational or one of
    the three IEEE 754 special values.  In this model finite arithmetic is
    exact: rounding, overflow and underflow are not part of it, and neither
    is the sign of zero (a zero divisor behaves as [+0], which is what
    [x - x] and [1 + (-1)] produce).  Division by zero and the arithmetic of
    the special values follow IEEE 754 as JavaScript exposes it.  The
    properties stated in this model are those that do not depend on how a
    finite result is rounded: which branch is taken, which entry of an
    object is read, how NaN propagates.

    Rounding.  The payback calculator is also read in correctly rounded
    arithmetic (every [+], [-] and [/] returns its exact result rounded to a
    machine number) and in binary64 itself, on the kernel's floating-point
    numbers; what is proved of its values is proved there. *)

From Stdlib Require Import Floats.PrimFloat.
From Stdlib Require Floats.FloatOps Floats.SpecFloat.
From Stdlib Require Import QArith Qcanon Qcabs Qround Qpower Lqa.
From Stdlib Require Import List Bool Arith ZArith Lia Ascii String.
Import ListNotations.

Set Implicit Arguments.
Set Warnings "-inexact-float".

Close Scope Qc_scope.
Close Scope Q_scope.

(** ** JavaScript numbers *)

Inductive number : Type :=
| Fin (q : Qc)
| PInf
| NInf
| NaN.

Declare Scope js_scope.
Delimit Scope js_scope with js.
Bind Scope js_scope with number.

Definition Qcltb (x y : Qc) : bool :=
  match (x ?= y)%Qc with Lt => true | _ => false end.

Definition Qcleb (x y : Qc) : bool :=
  match (x ?= y)%Qc with Gt => false | _ => true end.

Definition Qceqb (x y : Qc) : bool :=
  match (x ?= y)%Qc with Eq => true | _ => false end.

(** A numeric literal of the source. *)
Definition lit (q : Q) : number := Fin (Q2Qc q).

Definition Qc_of_nat (n : nat) : Qc := Q2Qc (inject_Z (Z.of_nat n)).

(** An array index or a count used as a number. *)
Definition of_nat (n : nat) : number := Fin (Qc_of_nat n).

Definition zero : number := Fin 0%Qc.
Definition one : number := Fin 1%Qc.

(** Unary minus. *)
Definition num_neg (x : number) : number :=
  match x with
  | Fin a => Fin (- a)%Qc
  | PInf => NInf
  | NInf => PInf
  | NaN => NaN
  end.

(** [x + y]: opposite infinities give NaN. *)
Definition num_add (x y : number) : number :=
  match x, y with
  | NaN, _ | _, NaN => NaN
  | Fin a, Fin b => Fin (a + b)%Qc
  | PInf, NInf | NInf, PInf => NaN
  | PInf, _ | _, PInf => PInf
  | NInf, _ | _, NInf => NInf
  end.

Definition num_sub (x y : number) : number := num_add x (num_neg y).

(** Sign of a finite value as the infinity a product or quotient with an
    infinity takes; a zero has no such sign. *)
Definition signed_inf (positive : bool) : number :=
  if positive then PInf else NInf.

(** [x * y]: zero times an infinity is NaN. *)
Definition num_mul (x y : number) : number :=
  match x, y with
  | NaN, _ | _, NaN => NaN
  | Fin a, Fin b => Fin (a * b)%Qc
  | Fin a, PInf | PInf, Fin a =>
      if Qceqb a 0 then NaN else signed_inf (Qcltb 0 a)
  | Fin a, NInf | NInf, Fin a =>
      if Qceqb a 0 then NaN else signed_inf (Qcltb a 0)
  | PInf, PInf | NInf, NInf => PInf
  | PInf, NInf | NInf, PInf => NInf
  end.

(** [x / y]: [0/0] and [Infinity/Infinity] are NaN, a nonzero finite value
    over zero is the infinity of its sign, a finite value over an infinity
    is zero. *)
Definition num_div (x y : number) : number :=
  match x, y with
  | NaN, _ | _, NaN => NaN
  | Fin a, Fin b =>
      if Qceqb b 0
      then (if Qceqb a 0 then NaN else signed_inf (Qcltb 0 a))
      else Fin (a / b)%Qc
  | Fin _, (PInf | NInf) => Fin 0%Qc
  | PInf, Fin b => signed_inf (Qcleb 0 b)
  | NInf, Fin b => signed_inf (Qcltb b 0)
  | (PInf | NInf), (PInf | NInf) => NaN
  end.

(** [Math.abs]. *)
Definition num_abs (x : number) : number :=
  match x with
  | Fin a => Fin (Qcabs a)
  | PInf | NInf => PInf
  | NaN => NaN
  end.

(** [Math.pow(x, n)] for an exponent that is a natural number: [x^0] is [1]
    for every [x], NaN included. *)
Definition num_pow (x : number) (n : nat) : number :=
  match n with
  | O => Fin 1%Qc
  | S _ =>
      match x with
      | Fin a => Fin (a ^ n)%Qc
      | PInf => PInf
      | NInf => if Nat.even n then PInf else NInf
      | NaN => NaN
      end
  end.

(** [x < y]; every comparison with NaN is false. *)
Definition num_lt (x y : number) : bool :=
  match x, y with
  | NaN, _ | _, NaN => false
  | Fin a, Fin b => Qcltb a b
  | _, NInf => false
  | NInf, _ => true
  | PInf, _ => false
  | Fin _, PInf => true
  end.

Definition num_gt (x y : number) : bool := num_lt y x.

(** [x === y] on numbers. *)
Definition num_eq (x y : number) : bool :=
  match x, y with
  | Fin a, Fin b => Qceqb a b
  | PInf, PInf | NInf, NInf => true
  | _, _ => false
  end.

(** [x >= y]. *)
Definition num_ge (x y : number) : bool := num_lt y x || num_eq x y.

Definition isNaN (x : number) : bool :=
  match x with NaN => true | _ => false end.

(** [Math.min] and [Math.max] of two arguments: NaN if either is NaN. *)
Definition num_min (x y : number) : number :=
  match x, y with
  | NaN, _ | _, NaN => NaN
  | _, _ => if num_lt y x then y else x
  end.

Definition num_max (x y : number) : number :=
  match x, y with
  | NaN, _ | _, NaN => NaN
  | _, _ => if num_lt x y then y else x
  end.

(** [Math.floor]. *)
Definition num_floor (x : number) : number :=
  match x with
  | Fin a => Fin (Q2Qc (inject_Z (Qfloor a)))
  | _ => x
  end.

(** Truthiness of a number: [0] and NaN are falsy. *)
Definition truthy (x : number) : bool :=
  match x with
  | Fin a => negb (Qceqb a 0)
  | PInf | NInf => true
  | NaN => false
  end.

Notation "x + y" := (num_add x y) : js_scope.
Notation "x - y" := (num_sub x y) : js_scope.
Notation "x * y" := (num_mul x y) : js_scope.
Notation "x / y" := (num_div x y) : js_scope.
Notation "- x" := (num_neg x) : js_scope.
Notation "x <? y" := (num_lt x y) : js_scope.
Notation "x >? y" := (num_gt x y) : js_scope.
Notation "x >=? y" := (num_ge x y) : js_scope.
Notation "x === y" := (num_eq x y) (at level 70, no associativity) : js_scope.

Open Scope js_scope.

(** ** Arrays *)

(** [Array.prototype.reduce] with the three-argument callback
    [(accumulator, element, index)]; [reduce_from] carries the index. *)
Fixpoint reduce_from (A B : Type) (f : B -> A -> nat -> B) (i : nat)
    (l : list A) (acc : B) : B :=
  match l with
  | [] => acc
  | x :: rest => reduce_from f (S i) rest (f acc x i)
  end.

Definition reduce (A B : Type) (f : B -> A -> nat -> B) (l : list A) (init : B) : B :=
  reduce_from f 0 l init.

(** [Array.from({ length: n }, (_, i) => f i)]. *)
Definition array_from (A : Type) (n : nat) (f : nat -> A) : list A :=
  map f (seq 0 n).

(** ** Discounting engine, IRR solver, payback, amortization *)

Definition calculateNPV (cashFlows : list number) (discountRate initialInvestment : number)
  : number :=
  reduce (fun npv cashFlow year => npv + cashFlow / num_pow (one + discountRate) (year + 1))
         cashFlows (- initialInvestment).

Definition epsilon : number := lit 0.000001.

(** The derivative estimate of the Newton step, as the source computes it. *)
Definition derivativeNpv (cashFlows : list number) (guess : number) : number :=
  reduce (fun acc cf i => acc - of_nat i * cf / num_pow (one + guess) (i + 1))
         cashFlows zero.

(** The [while (maxIterations > 0)] loop of [calculateIRR]; the loop counter
    is the recursion argument.  [None] is JavaScript's [null]. *)
Fixpoint irr_loop (cashFlows : list number) (maxIterations : nat) (guess : number)
  : option number :=
  match maxIterations with
  | O => None
  | S remaining =>
      let npv := calculateNPV cashFlows guess zero in
      if num_abs npv <? epsilon then Some guess
      else
        let d := derivativeNpv cashFlows guess in
        if d === zero then None
        else
          let nextGuess := guess - npv / d in
          if num_abs (nextGuess - guess) <? epsilon then Some nextGuess
          else irr_loop cashFlows remaining nextGuess
  end.

Definition calculateIRR (cashFlows : list number) : option number :=
  irr_loop cashFlows 100 (lit 0.1).

(** The [for] loop of [calculatePaybackPeriod], at index [i] with the running
    [cumulativeCashFlow]; the list is the part of the array from [i] on. *)
Fixpoint payback_loop (cashFlows : list number) (i : nat) (cumulativeCashFlow : number)
  : option number :=
  match cashFlows with
  | [] => None
  | cf :: rest =>
      let cumulativeCashFlow := cumulativeCashFlow + cf in
      if cumulativeCashFlow >=? zero then
        let previousCumulative := cumulativeCashFlow - cf in
        let fraction := (- previousCumulative) / cf in
        Some (of_nat i + fraction)
      else payback_loop rest (S i) cumulativeCashFlow
  end.

Definition calculatePaybackPeriod (cashFlows : list number) (initialInvestment : number)
  : option number :=
  payback_loop cashFlows 0 (- initialInvestment).

(** [termYears] is a whole number of years (the form's step is 1), so that
    [numberOfPayments] is a natural exponent. *)
Definition calculateLoanPayment (principal annualRate : number) (termYears : nat) : number :=
  let monthlyRate := annualRate / lit 12 / lit 100 in
  let numberOfPayments := (termYears * 12)%nat in
  principal * monthlyRate * num_pow (one + monthlyRate) numberOfPayments
  / (num_pow (one + monthlyRate) numberOfPayments - one).

(** ** Project assumptions: the component's state *)

Record LoanDetails := {
  apr : number;
  term : nat;
  downPayment : number
}.

Record EvDetails := {
  numStations : number;
  costPerStation : number;
  pricePerKwh : number;
  sessionsPerDay : number;
  energyPerSession : number;
  operationalYears : nat
}.

Record SolarSystem := {
  systemSize : number;
  costPerWatt : number;
  annualProduction : number
}.

Record BatteryDetails := {
  numBatteries : number;
  costPerBattery : number;
  capacity : number;
  efficiency : number;
  cycleLife : number;
  depthOfDischarge : number
}.

Record MaintenanceCosts := {
  evChargerAnnual : number;
  solarAnnual : number;
  batteryAnnual : number
}.

Record Incentives := {
  baseTaxCredit : number;
  additionalTaxCredit : bool;
  utilityRebatePerCharger : number
}.

Record ProjectAssumptions := {
  financingType : string;
  loanDetails : LoanDetails;
  location : string;
  srecEligibilityYears : number;
  evDetails : EvDetails;
  solarSystem : SolarSystem;
  batteryDetails : BatteryDetails;
  gridElectricityRate : number;
  maintenanceCosts : MaintenanceCosts;
  incentives : Incentives;
  annualUtilityRate : number;
  evChargeEscalator : number;
  includeBattery : bool;
  solarOffset : number
}.

(** One element of the [cashFlows] array. *)
Record CashFlowYear := {
  year : nat;
  evRevenue : number;
  gridCost : number;
  maintenanceCost : number;
  loanPayment : number;
  profit : number;
  taxes : number;
  depreciation : number;
  cashFlow : number;
  cumulativeCashFlow : number;
  discountedCashFlow : number
}.

(** A property value of the object [financialMetrics] returns. *)
Inductive value : Type :=
| VNum (n : number)
| VNull
| VArray (rows : list CashFlowYear).

(** An object literal is its list of [key: value] entries in source order;
    reading a property takes the last entry with that key, as a later
    duplicate key overwrites an earlier one. *)
Definition object := list (string * value).

Fixpoint get (o : object) (k : string) : option value :=
  match o with
  | [] => None
  | (k', v) :: rest =>
      match get rest k with
      | Some v' => Some v'
      | None => if String.eqb k k' then Some v else None
      end
  end.

(** ** Depreciation table *)

Definition macrsSchedule : list number :=
  [lit 0.2; lit 0.32; lit 0.192; lit 0.1152; lit 0.1152; lit 0.0576;
   zero; zero; zero; zero; zero; zero; zero; zero; zero; zero; zero; zero;
   zero; zero].

(** [macrsSchedule[year] || 0]: an index past the end reads [undefined]. *)
Definition macrs_at (year : nat) : number :=
  match nth_error macrsSchedule year with
  | Some x => if truthy x then x else zero
  | None => zero
  end.

(** ** The metrics aggregator *)

Section Aggregator.

Variable a : ProjectAssumptions.

Let ev := evDetails a.
Let solar := solarSystem a.
Let battery := batteryDetails a.
Let loan := loanDetails a.
Let maint := maintenanceCosts a.
Let inc := incentives a.

Definition totalSolarCost : number := systemSize solar * lit 1000 * costPerWatt solar.
Definition totalEvStationsCost : number := numStations ev * costPerStation ev.
Definition totalBatteryCost : number :=
  if includeBattery a then numBatteries battery * costPerBattery battery else zero.
Definition totalProjectCost : number :=
  totalSolarCost + totalEvStationsCost + totalBatteryCost.

Definition baseTaxCreditAmount : number :=
  totalProjectCost * (baseTaxCredit inc / lit 100).
Definition additionalTaxCreditAmount : number :=
  if additionalTaxCredit inc then totalProjectCost * lit 0.1 else zero.
Definition utilityRebateAmount : number :=
  numStations ev * utilityRebatePerCharger inc.

Definition annualSrecs : number := num_floor (annualProduction solar / lit 1000).
Definition srecPrice : number :=
  if String.eqb (location a) "MD" then lit 80
  else if String.eqb (location a) "DC" then lit 350 else zero.
Definition annualSrecRevenue : number := annualSrecs * srecPrice.
Definition totalSrecRevenue : number := annualSrecRevenue * srecEligibilityYears a.

Definition totalIncentives : number :=
  baseTaxCreditAmount + additionalTaxCreditAmount + utilityRebateAmount.
Definition netProjectCost : number := totalProjectCost - totalIncentives.

Definition isLoan : bool := String.eqb (financingType a) "loan".

Definition annualEvRevenue : number :=
  numStations ev * sessionsPerDay ev * energyPerSession ev * pricePerKwh ev * lit 365.
Definition loanTotalCost : number :=
  if isLoan
  then (apr loan / lit 100 * of_nat (term loan) * (totalProjectCost - downPayment loan))
       + totalProjectCost
  else zero.
Definition initialInvestment : number := netProjectCost.
Definition discountRate : number :=
  if isLoan then apr loan / lit 100 else lit 0.1.

Definition evEnergyDemand : number :=
  numStations ev * sessionsPerDay ev * energyPerSession ev * lit 365.
Definition solarEnergyUsed : number :=
  num_min (annualProduction solar) (evEnergyDemand * (solarOffset a / lit 100)).
Definition gridEnergyUsed : number :=
  num_max zero (evEnergyDemand - solarEnergyUsed).

(** The callback of [Array.from] that builds the record of one year;
    [y] is the zero-based index. *)
Definition cashFlowYear (y : nat) : CashFlowYear :=
  let evRevenue :=
    numStations ev * sessionsPerDay ev * energyPerSession ev
    * (pricePerKwh ev * num_pow (one + evChargeEscalator a) y) * lit 365 in
  let gridCost :=
    gridEnergyUsed * gridElectricityRate a * num_pow (one + annualUtilityRate a) y in
  let maintenanceCost :=
    (evChargerAnnual maint * numStations ev + solarAnnual maint) * num_pow (lit 1.03) y in
  let batteryCost :=
    if includeBattery a
    then batteryAnnual maint * numBatteries battery * num_pow (lit 1.03) y
    else zero in
  let totalMaintenanceCost := maintenanceCost + batteryCost in
  let loanPayment :=
    if isLoan && (y <? term loan)%nat
    then calculateLoanPayment (totalProjectCost - downPayment loan) (apr loan) (term loan)
    else zero in
  let profit := evRevenue - gridCost - totalMaintenanceCost - loanPayment in
  let depreciableBasis := totalProjectCost - (lit 0.5 * baseTaxCreditAmount) in
  let depreciation := macrs_at y * depreciableBasis in
  let taxableIncome := profit - depreciation in
  let taxes := if taxableIncome >? zero then taxableIncome * lit 0.21 else zero in
  let cashFlow := profit - taxes in
  let cumulativeCashFlow := if (y =? 0)%nat then - netProjectCost else zero in
  let cumulativeCashFlow := cumulativeCashFlow + cashFlow in
  let discountedCashFlow := cashFlow / num_pow (one + discountRate) (y + 1) in
  {| year := y + 1;
     evRevenue := evRevenue;
     gridCost := gridCost;
     maintenanceCost := totalMaintenanceCost;
     loanPayment := loanPayment;
     profit := profit;
     taxes := taxes;
     depreciation := depreciation;
     cashFlow := cashFlow;
     cumulativeCashFlow := cumulativeCashFlow;
     discountedCashFlow := discountedCashFlow |}.

Definition cashFlows : list CashFlowYear :=
  array_from (operationalYears ev) cashFlowYear.

Definition cashFlowsOnly : list number := map cashFlow cashFlows.
Definition npv : number := calculateNPV cashFlowsOnly discountRate initialInvestment.
Definition irr : option number := calculateIRR (- initialInvestment :: cashFlowsOnly).
Definition paybackPeriod : option number :=
  calculatePaybackPeriod cashFlowsOnly initialInvestment.
Definition totalCashFlow : number :=
  reduce (fun sum flow _ => sum + flow) cashFlowsOnly zero.
Definition totalYears : number := of_nat (operationalYears ev).
Definition roi : number :=
  ((totalCashFlow - initialInvestment) / initialInvestment) * lit 100.
Definition annualizedROI : number := roi / totalYears.

(** [x !== null ? f x : null]. *)
Definition nullable (f : number -> number) (x : option number) : value :=
  match x with
  | Some v => VNum (f v)
  | None => VNull
  end.

(** The object literal returned by the [useMemo] callback, entry by entry. *)
Definition financialMetrics : object :=
  [ ("totalProjectCost", VNum totalProjectCost);
    ("totalIncentives", VNum totalIncentives);
    ("netProjectCost", VNum netProjectCost);
    ("incentivePercentage", VNum ((totalIncentives / totalProjectCost) * lit 100));
    ("annualEvRevenue", VNum annualEvRevenue);
    ("baseTaxCreditAmount", VNum baseTaxCreditAmount);
    ("additionalTaxCreditAmount", VNum additionalTaxCreditAmount);
    ("utilityRebateAmount", VNum utilityRebateAmount);
    ("irr", nullable (fun irr => irr * lit 100) irr);
    ("paybackPeriod", nullable (fun p => p) paybackPeriod);
    ("npv", if negb (isNaN npv) then VNum npv else VNull);
    ("totalRevenue", VNum totalCashFlow);
    ("annualSrecRevenue", VNum annualSrecRevenue);
    ("annualizedROI", VNum (annualizedROI * lit 100));
    ("cashFlows", VArray cashFlows);
    ("loanTotalCost", VNum loanTotalCost);
    ("evEnergyDemand", VNum evEnergyDemand);
    ("solarEnergyUsed", VNum solarEnergyUsed);
    ("roi", VNum roi);
    ("annualizedROI", VNum annualizedROI) ]%string.

End Aggregator.

(** The component's initial state. *)
Definition defaultAssumptions : ProjectAssumptions :=
  {| financingType := "cash";
     loanDetails := {| apr := lit 5; term := 10; downPayment := lit 20000 |};
     location := "MD";
     srecEligibilityYears := lit 5;
     evDetails := {| numStations := lit 4; costPerStation := lit 50000;
                     pricePerKwh := lit 0.45; sessionsPerDay := lit 6;
                     energyPerSession := lit 30; operationalYears := 20 |};
     solarSystem := {| systemSize := lit 100; costPerWatt := lit 1.8;
                       annualProduction := lit 120000 |};
     batteryDetails := {| numBatteries := lit 1; costPerBattery := lit 100000;
                          capacity := lit 200; efficiency := lit 0.9;
                          cycleLife := lit 4000; depthOfDischarge := lit 0.8 |};
     gridElectricityRate := lit 0.12;
     maintenanceCosts := {| evChargerAnnual := lit 500; solarAnnual := lit 1000;
                            batteryAnnual := lit 200 |};
     incentives := {| baseTaxCredit := lit 30; additionalTaxCredit := false;
                      utilityRebatePerCharger := lit 15000 |};
     annualUtilityRate := lit 0.03;
     evChargeEscalator := lit 0.02;
     includeBattery := false;
     solarOffset := lit 50 |}.

(** ** Definitions used to state the properties *)

(** [x <= y] on numbers. *)
Definition num_le (x y : number) : bool := y >=? x.

(** Decidable equality of numbers as values (unlike [===], NaN equals
    itself here); closed equations are settled by evaluation. *)
Definition number_eqb (x y : number) : bool :=
  match x, y with
  | Fin a, Fin b => Qceqb a b
  | PInf, PInf | NInf, NInf | NaN, NaN => true
  | _, _ => false
  end.

Definition finite (x : number) : Prop :=
  match x with Fin _ => True | _ => False end.

(** The sequence with the entry at index [j] replaced by [v]. *)
Fixpoint replace_at (A : Type) (j : nat) (v : A) (l : list A) : list A :=
  match l, j with
  | [], _ => []
  | _ :: rest, O => v :: rest
  | x :: rest, S j' => x :: replace_at j' v rest
  end.

(** The sum of the cash flows as the aggregator computes it. *)
Definition sumCashFlows (a : ProjectAssumptions) : number :=
  reduce (fun sum flow _ => sum + flow) (map cashFlow (cashFlows a)) zero.

(** The running sum the claim describes, which is also what the schedule
    table of the component recomputes for display:
    [cashFlows.slice(0, index + 1).reduce((sum, f) => sum + f.cashFlow, 0) - netProjectCost]. *)
Definition tableCumulativeCashFlow (a : ProjectAssumptions) (index : nat) : number :=
  reduce (fun sum f _ => sum + cashFlow f) (firstn (index + 1) (cashFlows a)) zero
  - netProjectCost a.

(** The callback of the [reduce] of [calculateNPV]. *)
Definition npvTerm (discountRate : number) : number -> number -> nat -> number :=
  fun npv cashFlow year => npv + cashFlow / num_pow (one + discountRate) (year + 1).

(** The callback of the derivative's [reduce]. *)
Definition derivTerm (guess : number) : number -> number -> nat -> number :=
  fun acc cf i => acc - of_nat i * cf / num_pow (one + guess) (i + 1).

(** *** The Newton iteration of the IRR solver, guess by guess *)

Section NewtonIteration.

Variable cashFlows : list number.

(** The Newton update [guess - npv / derivativeNpv]. *)
Definition newtonStep (guess : number) : number :=
  guess - calculateNPV cashFlows guess zero / derivativeNpv cashFlows guess.

(** The guess after [k] updates, from a starting guess. *)
Fixpoint newtonFrom (guess : number) (k : nat) : number :=
  match k with
  | O => guess
  | S k' => newtonFrom (newtonStep guess) k'
  end.

(** The guess the solver holds at the start of iteration [k]. *)
Definition guessAt (k : nat) : number := newtonFrom (lit 0.1) k.

(** The three tests of one iteration. *)
Definition npvConverged (guess : number) : bool :=
  num_abs (calculateNPV cashFlows guess zero) <? epsilon.

Definition zeroDerivative (guess : number) : bool :=
  derivativeNpv cashFlows guess === zero.

Definition stepConverged (guess : number) : bool :=
  num_abs (newtonStep guess - guess) <? epsilon.

(** An iteration that meets neither tolerance and has a nonzero derivative
    goes on to the next one. *)
Definition continues (guess : number) : bool :=
  negb (npvConverged guess) && negb (zeroDerivative guess)
  && negb (stepConverged guess).

(** The iteration at [guess] leaves the loop with the rate [r]. *)
Definition convergesWith (guess r : number) : Prop :=
  (npvConverged guess = true /\ r = guess)
  \/ (npvConverged guess = false /\ zeroDerivative guess = false
      /\ stepConverged guess = true /\ r = newtonStep guess).

(** The iteration at [guess] takes a Newton step and finds the derivative
    equal to zero. *)
Definition hitsZeroDerivative (guess : number) : Prop :=
  npvConverged guess = false /\ zeroDerivative guess = true.

End NewtonIteration.

(** ** Further code of the component and of the files around it *)

(** [validateInput], from the point where [parseFloat] has returned [num]
    (NaN for a text that is no number):
    [isNaN(num) ? min : Math.max(min, Math.min(max, num))]. *)
Definition validateInput (num min max : number) : number :=
  if isNaN num then min else num_max min (num_min max num).

(** [newValue.replace(/^0+/, '')]. *)
Fixpoint stripLeadingZeros (s : string) : string :=
  match s with
  | String "0"%char rest => stripLeadingZeros rest
  | _ => s
  end.

(** The text [handleChange] of the [Input] component writes back before it
    calls the form's [onChange]. *)
Definition handleChange (type newValue : string) : string :=
  if String.eqb type "number" && (1 <? String.length newValue)%nat
  then
    let newValue := stripLeadingZeros newValue in
    if String.eqb newValue "" then "0"%string else newValue
  else newValue.

(** The [adjustedMetrics] of the sensitivity panel. *)
Module SensitivityAnalysis.

Record Metrics := {
  irr : option number;
  paybackPeriod : option number;
  npv : option number;
  roi : number
}.

(** [x ? f(x) : null] for a nullable number: null, [0] and NaN are falsy. *)
Definition whenTruthy (x : option number) (f : number -> number) : option number :=
  match x with
  | Some v => if truthy v then Some (f v) else None
  | None => None
  end.

Definition adjustedMetrics (baselineMetrics : Metrics) (sensitivityFactor : number)
  : Metrics :=
  {| irr := whenTruthy (irr baselineMetrics) (fun v => v * sensitivityFactor);
     paybackPeriod :=
       whenTruthy (paybackPeriod baselineMetrics) (fun v => v / sensitivityFactor);
     npv := whenTruthy (npv baselineMetrics) (fun v => v * sensitivityFactor);
     roi := roi baselineMetrics * sensitivityFactor |}.

End SensitivityAnalysis.

(** The form's initial state switched to a loan at 0% APR. *)
Definition zeroRateLoanAssumptions : ProjectAssumptions :=
  {| financingType := "loan";
     loanDetails := {| apr := lit 0; term := 10; downPayment := lit 20000 |};
     location := location defaultAssumptions;
     srecEligibilityYears := srecEligibilityYears defaultAssumptions;
     evDetails := evDetails defaultAssumptions;
     solarSystem := solarSystem defaultAssumptions;
     batteryDetails := batteryDetails defaultAssumptions;
     gridElectricityRate := gridElectricityRate defaultAssumptions;
     maintenanceCosts := maintenanceCosts defaultAssumptions;
     incentives := incentives defaultAssumptions;
     annualUtilityRate := annualUtilityRate defaultAssumptions;
     evChargeEscalator := evChargeEscalator defaultAssumptions;
     includeBattery := includeBattery defaultAssumptions;
     solarOffset := solarOffset defaultAssumptions |}.

(** ** The payback calculator over the arithmetic of the machine *)

Unset Implicit Arguments.

(** What [calculatePaybackPeriod] does to numbers: [+], binary and unary [-],
    [/], the test [>= 0], and the loop counter read as a number.  The
    calculator is written once over these operations and then read in exact
    arithmetic (as above), in correctly rounded arithmetic, and in binary64. *)
Record Arithmetic : Type := {
  num : Type;
  plus : num -> num -> num;
  minus : num -> num -> num;
  quot : num -> num -> num;
  negate : num -> num;
  nonneg : num -> bool;
  index : nat -> num
}.

Module Generic.

Section Payback.

Variable A : Arithmetic.

(** The [for] loop of [calculatePaybackPeriod] in
    [src/components/ui/FinancialCalculator.tsx]. *)
Fixpoint payback_loop (cashFlows : list (num A)) (i : nat) (cumulativeCashFlow : num A)
  : option (num A) :=
  match cashFlows with
  | [] => None
  | cf :: rest =>
      let cumulativeCashFlow := plus A cumulativeCashFlow cf in
      if nonneg A cumulativeCashFlow then
        let previousCumulative := minus A cumulativeCashFlow cf in
        let fraction := quot A (negate A previousCumulative) cf in
        Some (plus A (index A i) fraction)
      else payback_loop rest (S i) cumulativeCashFlow
  end.

Definition calculatePaybackPeriod (cashFlows : list (num A)) (initialInvestment : num A)
  : option (num A) :=
  payback_loop cashFlows 0 (negate A initialInvestment).

End Payback.

(** The component also exists in an earlier copy ([unnamed/part_002]) whose
    payback calculator interpolates with the cumulative after the crossing
    year, [i + cumulativeCashFlow / cashFlows[i]]; the formula above is the
    one the current file marks as corrected. *)
Module EarlierVariant.

Section Payback.

Variable A : Arithmetic.

Fixpoint payback_loop (cashFlows : list (num A)) (i : nat) (cumulativeCashFlow : num A)
  : option (num A) :=
  match cashFlows with
  | [] => None
  | cf :: rest =>
      let cumulativeCashFlow := plus A cumulativeCashFlow cf in
      if nonneg A cumulativeCashFlow then
        Some (plus A (index A i) (quot A cumulativeCashFlow cf))
      else payback_loop rest (S i) cumulativeCashFlow
  end.

Definition calculatePaybackPeriod (cashFlows : list (num A)) (initialInvestment : num A)
  : option (num A) :=
  payback_loop cashFlows 0 (negate A initialInvestment).

End Payback.

End EarlierVariant.

Section Crossing.

Variable A : Arithmetic.

(** The running cumulative after the first [k] cash flows, started at
    [-initialInvestment] and accumulated from left to right. *)
Definition cumulativeAfter (cashFlows : list (num A)) (initialInvestment : num A)
    (k : nat) : num A :=
  fold_left (plus A) (firstn k cashFlows) (negate A initialInvestment).

(** The crossing year: the first index at which the running cumulative is
    [>= 0]. *)
Definition crossingYear (cashFlows : list (num A)) (initialInvestment : num A)
  : option nat :=
  find (fun i => nonneg A (cumulativeAfter cashFlows initialInvestment (S i)))
       (seq 0 (List.length cashFlows)).

(** The same index, found by walking the sequence from index [i] with the
    running cumulative. *)
Fixpoint crossing_loop (cashFlows : list (num A)) (i : nat) (cumulativeCashFlow : num A)
  : option nat :=
  match cashFlows with
  | [] => None
  | cf :: rest =>
      if nonneg A (plus A cumulativeCashFlow cf) then Some i
      else crossing_loop rest (S i) (plus A cumulativeCashFlow cf)
  end.

(** The value interpolated in the crossing year [i] with cash flow [cf] from
    the cumulative after that year: the cumulative before the year is
    recomputed by taking the year's cash flow off again. *)
Definition interpolated (cashFlows : list (num A)) (initialInvestment : num A)
    (i : nat) (cf : num A) : num A :=
  plus A (index A i)
       (quot A (negate A (minus A (cumulativeAfter cashFlows initialInvestment (S i)) cf))
             cf).

Definition paybackAtCrossing (cashFlows : list (num A)) (initialInvestment : num A)
  : option (num A) :=
  match crossingYear cashFlows initialInvestment with
  | Some i => option_map (interpolated cashFlows initialInvestment i) (nth_error cashFlows i)
  | None => None
  end.

(** The payback period in the words of the specification:
    [i + (-previousCumulative) / cashFlows[i]] at the crossing year [i], with
    [previousCumulative] the running cumulative before [cashFlows[i]] is
    added; null without a crossing year. *)
Definition paybackFromPrevious (cashFlows : list (num A)) (initialInvestment : num A)
  : option (num A) :=
  match crossingYear cashFlows initialInvestment with
  | Some i =>
      option_map
        (fun cf =>
           plus A (index A i)
                (quot A (negate A (cumulativeAfter cashFlows initialInvestment i)) cf))
        (nth_error cashFlows i)
  | None => None
  end.

(** What the earlier copy returns: [i + cumulative / cashFlows[i]] with the
    cumulative after the crossing year. *)
Definition earlierAtCrossing (cashFlows : list (num A)) (initialInvestment : num A)
  : option (num A) :=
  match crossingYear cashFlows initialInvestment with
  | Some i =>
      option_map
        (fun cf =>
           plus A (index A i)
                (quot A (cumulativeAfter cashFlows initialInvestment (S i)) cf))
        (nth_error cashFlows i)
  | None => None
  end.

End Crossing.

End Generic.

(** *** Correctly rounded arithmetic

    IEEE 754 defines [+], [-] and [/] on binary64 as the exact result rounded
    to a machine number.  [rnd] is that rounding on finite exact results; it
    may overflow to an infinity.  The special values keep the arithmetic of
    [num_add], [num_sub] and [num_div].  The sign of zero is not modelled: a
    zero divisor behaves as [+0]. *)

Section Rounded.

Variable rnd : Qc -> number.

Definition rounded (x : number) : number :=
  match x with
  | Fin q => rnd q
  | _ => x
  end.

(** Negation and comparison are exact; the loop counter is a whole number. *)
Definition roundedArithmetic : Arithmetic :=
  {| num := number;
     plus := fun x y => rounded (x + y);
     minus := fun x y => rounded (x - y);
     quot := fun x y => rounded (x / y);
     negate := num_neg;
     nonneg := fun x => x >=? zero;
     index := of_nat |}.

(** What the proofs use of a rounding: it is monotone, commutes with
    negation, leaves machine numbers unchanged, and [0] and [1] are machine
    numbers.  Rounding to nearest, ties to even, has these properties, and so
    has the identity (exact arithmetic). *)
Record Rounding : Prop := {
  rnd_monotone : forall x y : Qc, (x <= y)%Qc -> num_le (rnd x) (rnd y) = true;
  rnd_opp : forall x : Qc, rnd (- x)%Qc = - rnd x;
  rnd_idempotent : forall x y : Qc, rnd x = Fin y -> rnd y = Fin y;
  rnd_0 : rnd 0%Qc = Fin 0%Qc;
  rnd_1 : rnd 1%Qc = Fin 1%Qc
}.

(** A rational that is a machine number. *)
Definition representable (q : Qc) : Prop := rnd q = Fin q.

(** The state of the payback loop as long as no crossing was found: the
    running cumulative is a negative machine number, or [-Infinity] after an
    overflow. *)
Definition stillBelow (cum : number) : Prop :=
  match cum with
  | Fin c => (c < 0)%Qc /\ representable c
  | NInf => True
  | _ => False
  end.

End Rounded.

(** *** Rounding to binary64

    The rounding of IEEE 754 binary64: to the nearest number with a
    significand of 53 bits and an exponent not below that of the subnormal
    numbers, the one with an even significand of two that are equally near;
    a result of magnitude [2^1024] or more is the infinity of its sign. *)

Definition pow2 (z : Z) : Q := (2 ^ z)%Q.

(** The integer [l] with [2^l <= x < 2^(l+1)], for [x > 0]. *)
Definition ilog2 (x : Q) : Z :=
  let l := (Z.log2 (Qnum x) - Z.log2 (Zpos (Qden x)))%Z in
  if Qle_bool (pow2 l) x then l else (l - 1)%Z.

(** The exponent of the last place of the binary64 numbers around [x]:
    53 significant bits, and [2^-1074] for the subnormal numbers. *)
Definition cexp (x : Q) : Z := Z.max (ilog2 x - 52) (-1074).

(** The nearest integer, the even one of two that are equally near. *)
Definition nearest_even (q : Q) : Z :=
  let f := Qfloor q in
  match (2 * (q - inject_Z f) ?= 1)%Q with
  | Lt => f
  | Gt => (f + 1)%Z
  | Eq => if Z.even f then f else (f + 1)%Z
  end.

(** A non-negative rational rounded to a multiple of its last place. *)
Definition round_pos (x : Q) : Q :=
  (inject_Z (nearest_even (x / pow2 (cexp x))) * pow2 (cexp x))%Q.

(** Negative rationals are rounded as their opposites are. *)
Definition round_Q (x : Q) : Q :=
  if Qle_bool 0 x then round_pos x else (- round_pos (- x))%Q.

(** Rounding to nearest, ties to even, with overflow to the infinities. *)
Definition binary64_round (x : Qc) : number :=
  let r := round_Q x in
  if Qle_bool (pow2 1024) r then PInf
  else if Qle_bool r (- pow2 1024)%Q then NInf
  else Fin (Q2Qc r).

(** The machine number a decimal literal of the source denotes. *)
Definition binary64_of (q : Q) : Qc :=
  match binary64_round (Q2Qc q) with
  | Fin y => y
  | _ => 0%Qc
  end.

(** *** Binary64

    The kernel's floating-point numbers are IEEE 754 binary64 with rounding
    to nearest, ties to even: the arithmetic of a JavaScript number.  A
    decimal literal denotes the nearest binary64 value, as in the source. *)

Module Binary64.

(** The loop counter [i] after [n] increments [i++]. *)
Fixpoint counter (n : nat) : float :=
  match n with
  | O => 0%float
  | S k => PrimFloat.add (counter k) 1%float
  end.

Definition arithmetic : Arithmetic :=
  {| num := float;
     plus := PrimFloat.add;
     minus := PrimFloat.sub;
     quot := PrimFloat.div;
     negate := PrimFloat.opp;
     nonneg := fun x => PrimFloat.leb 0%float x;
     index := counter |}.

(** The number a binary64 value stands for. *)
Definition value (x : float) : number :=
  match FloatOps.Prim2SF x with
  | SpecFloat.S754_zero _ => Fin 0%Qc
  | SpecFloat.S754_infinity s => if s then NInf else PInf
  | SpecFloat.S754_nan => NaN
  | SpecFloat.S754_finite s m e =>
      Fin (Q2Qc ((if s then - inject_Z (Zpos m) else inject_Z (Zpos m)) * pow2 e))
  end.

End Binary64.

(** * Properties *)

(** ** Comparisons on rationals *)

Lemma Qcltb_lt (x y : Qc) : Qcltb x y = true <-> (x < y)%Qc.
Proof.
  unfold Qcltb. rewrite Qclt_alt.
  destruct (x ?= y)%Qc; split; congruence.
Qed.

Lemma Qcleb_le (x y : Qc) : Qcleb x y = true <-> (x <= y)%Qc.
Proof.
  unfold Qcleb. rewrite Qcle_alt.
  destruct (x ?= y)%Qc; split; congruence.
Qed.

Lemma Qceqb_eq (x y : Qc) : Qceqb x y = true <-> x = y.
Proof.
  unfold Qceqb. rewrite Qceq_alt.
  destruct (x ?= y)%Qc; split; congruence.
Qed.

Lemma Qceqb_refl (x : Qc) : Qceqb x x = true.
Proof. now apply Qceqb_eq. Qed.

Lemma Qceqb_neq (x y : Qc) : Qceqb x y = false <-> x <> y.
Proof.
  rewrite <- Qceqb_eq. destruct (Qceqb x y); split; congruence.
Qed.

Lemma Qcltb_ge (x y : Qc) : Qcltb x y = false <-> (y <= x)%Qc.
Proof.
  split; intros H.
  - apply Qcnot_lt_le. intros L. apply Qcltb_lt in L. congruence.
  - destruct (Qcltb x y) eqn:E; trivial.
    apply Qcltb_lt in E. now apply Qcle_not_lt in H.
Qed.

Lemma num_ge_Fin (x y : Qc) : (Fin x >=? Fin y) = Qcleb y x.
Proof.
  unfold num_ge; simpl.
  destruct (Qcleb y x) eqn:L.
  - apply Qcleb_le in L. destruct (Qcle_lt_or_eq _ _ L) as [H | H].
    + apply Qcltb_lt in H. now rewrite H.
    + subst. rewrite Qceqb_refl. apply orb_true_r.
  - apply orb_false_iff; split.
    + apply Qcltb_ge. apply Qcnot_lt_le. intros H.
      apply Qclt_le_weak, Qcleb_le in H. congruence.
    + apply Qceqb_neq. intros ->.
      pose proof (Qcle_refl y) as R. apply Qcleb_le in R. congruence.
Qed.

Lemma number_eqb_eq (x y : number) : number_eqb x y = true <-> x = y.
Proof.
  destruct x, y; simpl; try (split; (discriminate || reflexivity)).
  rewrite Qceqb_eq. split; [now intros -> | now injection 1].
Qed.

Lemma number_eqb_neq (x y : number) : number_eqb x y = false <-> x <> y.
Proof.
  rewrite <- number_eqb_eq. destruct (number_eqb x y); split; congruence.
Qed.

Lemma VNum_neq (x y : number) :
  number_eqb x y = false -> Some (VNum x) <> Some (VNum y).
Proof. intros E H. apply number_eqb_neq in E. congruence. Qed.

Lemma Some_number_eq (x : option number) (y : number) :
  option_map (number_eqb y) x = Some true -> x = Some y.
Proof.
  destruct x as [v |]; simpl; [| discriminate].
  intros [= E]. apply number_eqb_eq in E. now subst.
Qed.

Ltac num_compute :=
  match goal with
  | |- @eq number _ _ => apply number_eqb_eq; vm_compute; reflexivity
  | |- not (@eq number _ _) => apply number_eqb_neq; vm_compute; reflexivity
  end.

(** ** Amortization at a zero rate *)

Lemma num_pow_one (n : nat) : num_pow one n = one.
Proof.
  destruct n as [| n]; [reflexivity |].
  unfold num_pow, one. now rewrite Qcpower_1.
Qed.

(** C2 (code side).  With [annualRate = 0] the amortization formula is
    evaluated as it stands: the monthly rate is [0], the numerator is
    [principal * 0 * 1 = 0], the denominator is [1 - 1 = 0], and the quotient
    [0 / 0] is NaN for every finite principal and every term.  The source has
    no zero-rate branch, so the payment is never [principal / (termYears * 12)]. *)
Theorem calculateLoanPayment_zero_rate_is_NaN (principal : Qc) (termYears : nat) :
  calculateLoanPayment (Fin principal) (lit 0) termYears = NaN.
Proof.
  unfold calculateLoanPayment.
  assert (M : lit 0 / lit 12 / lit 100 = zero).
  { num_compute. }
  rewrite M.
  assert (O : one + zero = one).
  { unfold one, zero; simpl. now rewrite Qcplus_0_r. }
  rewrite O, num_pow_one.
  unfold one, zero, num_sub; simpl.
  replace (principal * 0 * 1)%Qc with 0%Qc by ring.
  now rewrite Qceqb_refl.
Qed.

(** The default loan of the form (100000 at 0% over 10 years): the claimed
    payment would be [100000 / 120]; the code gives NaN. *)
Example calculateLoanPayment_zero_rate_default :
  calculateLoanPayment (lit 100000) (lit 0) 10 = NaN
  /\ calculateLoanPayment (lit 100000) (lit 0) 10 <> lit 100000 / lit 120.
Proof.
  split; num_compute.
Qed.

(** ** Depreciation *)

Lemma cashFlows_length (a : ProjectAssumptions) :
  List.length (cashFlows a) = operationalYears (evDetails a).
Proof. unfold cashFlows, array_from. now rewrite length_map, length_seq. Qed.

Lemma cashFlows_nth (a : ProjectAssumptions) (y : nat) :
  y < operationalYears (evDetails a) ->
  nth_error (cashFlows a) y = Some (cashFlowYear a y).
Proof.
  intros H. unfold cashFlows, array_from.
  rewrite nth_error_map, nth_error_seq.
  apply Nat.ltb_lt in H. now rewrite H.
Qed.

Lemma macrs_at_late (k : nat) : macrs_at (6 + k) = zero.
Proof.
  unfold macrs_at.
  do 14 (destruct k as [| k]; [reflexivity |]).
  simpl. now destruct k.
Qed.

(** C6.  The table the scheduler applies ([macrsSchedule[year] || 0]) reads
    20%, 32%, 19.2%, 11.52%, 11.52%, 5.76% at year offsets 0 to 5 and 0 at
    every later offset; the six nonzero entries sum to 1; and the
    depreciation of every year of the schedule is the table entry of that
    year times [totalProjectCost - 0.5 * baseTaxCreditAmount]. *)
Theorem macrs_depreciation_schedule :
  (macrs_at 0 = lit 0.2 /\ macrs_at 1 = lit 0.32 /\ macrs_at 2 = lit 0.192 /\
   macrs_at 3 = lit 0.1152 /\ macrs_at 4 = lit 0.1152 /\ macrs_at 5 = lit 0.0576)
  /\ (forall k, macrs_at (6 + k) = zero)
  /\ lit 0.2 + lit 0.32 + lit 0.192 + lit 0.1152 + lit 0.1152 + lit 0.0576 = one
  /\ forall a : ProjectAssumptions,
       map depreciation (cashFlows a)
       = map (fun y => macrs_at y
                       * (totalProjectCost a - lit 0.5 * baseTaxCreditAmount a))
             (seq 0 (operationalYears (evDetails a))).
Proof.
  split; [| split; [| split]].
  - repeat split; num_compute.
  - apply macrs_at_late.
  - num_compute.
  - intros a. unfold cashFlows, array_from.
    rewrite map_map. apply map_ext. reflexivity.
Qed.

(** ** The returned object *)

Lemma get_roi (a : ProjectAssumptions) :
  get (financialMetrics a) "roi" = Some (VNum (roi a)).
Proof. reflexivity. Qed.

Lemma get_annualizedROI (a : ProjectAssumptions) :
  get (financialMetrics a) "annualizedROI" = Some (VNum (annualizedROI a)).
Proof. reflexivity. Qed.

(** C7, as the code has it.  The bundle's [roi] is
    [((sum of cashFlows - initialInvestment) / initialInvestment) * 100], a
    percentage; [annualizedROI] is that percentage divided by
    [operationalYears]; a non-null IRR is multiplied by 100 (a null one stays
    null); and [incentivePercentage] is multiplied by 100 as well. *)
Theorem metrics_roi_is_percent_scaled (a : ProjectAssumptions) :
  get (financialMetrics a) "roi"
  = Some (VNum ((sumCashFlows a - netProjectCost a) / netProjectCost a * lit 100))
  /\ get (financialMetrics a) "annualizedROI"
     = Some (VNum ((sumCashFlows a - netProjectCost a) / netProjectCost a * lit 100
                   / of_nat (operationalYears (evDetails a))))
  /\ get (financialMetrics a) "irr"
     = Some (match calculateIRR (- netProjectCost a :: map cashFlow (cashFlows a)) with
             | Some r => VNum (r * lit 100)
             | None => VNull
             end)
  /\ get (financialMetrics a) "incentivePercentage"
     = Some (VNum (totalIncentives a / totalProjectCost a * lit 100)).
Proof. repeat split; reflexivity. Qed.

(** C7 as stated fails: for the form's initial state the bundle's [roi] is
    not the fraction [(sum of cashFlows - initialInvestment) / initialInvestment]
    (it is 100 times that), and its [annualizedROI] is not that fraction
    divided by [operationalYears]. *)
Lemma metrics_roi_not_a_fraction :
  get (financialMetrics defaultAssumptions) "roi"
  <> Some (VNum ((sumCashFlows defaultAssumptions - netProjectCost defaultAssumptions)
                 / netProjectCost defaultAssumptions))
  /\ get (financialMetrics defaultAssumptions) "annualizedROI"
     <> Some (VNum ((sumCashFlows defaultAssumptions - netProjectCost defaultAssumptions)
                    / netProjectCost defaultAssumptions
                    / of_nat (operationalYears (evDetails defaultAssumptions)))).
Proof.
  rewrite get_roi, get_annualizedROI.
  split; apply VNum_neq; vm_compute; reflexivity.
Qed.

(** C9.  The property [annualizedROI] read from the returned object is
    [roi / operationalYears], with [roi] the percent-scaled ROI.  The literal
    also lists [annualizedROI: annualizedROI * 100] earlier; the later
    shorthand entry overrides it, so the value read carries no second
    scaling by 100. *)
Theorem metrics_annualizedROI_overridden (a : ProjectAssumptions) :
  In ("annualizedROI"%string, VNum (annualizedROI a * lit 100)) (financialMetrics a)
  /\ get (financialMetrics a) "annualizedROI"
     = Some (VNum (roi a / of_nat (operationalYears (evDetails a))))
  /\ roi a = (sumCashFlows a - netProjectCost a) / netProjectCost a * lit 100.
Proof.
  split; [| split; reflexivity].
  unfold financialMetrics. do 13 right. now left.
Qed.

(** On the form's initial state the two candidate values differ, so the
    override is observable. *)
Example metrics_annualizedROI_default :
  get (financialMetrics defaultAssumptions) "annualizedROI"
  <> Some (VNum (annualizedROI defaultAssumptions * lit 100)).
Proof.
  rewrite get_annualizedROI. apply VNum_neq; vm_compute; reflexivity.
Qed.

(** ** Cumulative cash flow of a year record *)

Lemma zero_add (x : number) : zero + x = x.
Proof.
  destruct x; simpl; trivial. now rewrite Qcplus_0_l.
Qed.

(** What the projector stores: the running total is re-initialised inside
    the per-year callback, so from the second year on the field holds the
    year's own cash flow. *)
Lemma cumulativeCashFlow_field (a : ProjectAssumptions) (y : nat) :
  cumulativeCashFlow (cashFlowYear a y)
  = match y with
    | O => - netProjectCost a + cashFlow (cashFlowYear a 0)
    | S _ => cashFlow (cashFlowYear a y)
    end.
Proof.
  destruct y as [| y]; [reflexivity |].
  unfold cashFlowYear at 1. cbn [cumulativeCashFlow Nat.eqb].
  apply zero_add.
Qed.

(** C1 (code side).  On the form's initial state the second year's record
    holds its own net cash flow (99885.12) in [cumulativeCashFlow], not the
    running sum [-netProjectCost + cashFlow(0) + cashFlow(1)] (-15030.92)
    that the claim describes and that the schedule table recomputes. *)
Theorem cumulativeCashFlow_not_running_sum :
  exists r0 r1,
    nth_error (cashFlows defaultAssumptions) 0 = Some r0
    /\ nth_error (cashFlows defaultAssumptions) 1 = Some r1
    /\ cumulativeCashFlow r1 = cashFlow r1
    /\ cashFlow r1 = lit 99885.12
    /\ - netProjectCost defaultAssumptions + cashFlow r0 + cashFlow r1 = lit (-15030.92)
    /\ tableCumulativeCashFlow defaultAssumptions 1 = lit (-15030.92)
    /\ cumulativeCashFlow r1
       <> - netProjectCost defaultAssumptions + cashFlow r0 + cashFlow r1.
Proof.
  exists (cashFlowYear defaultAssumptions 0), (cashFlowYear defaultAssumptions 1).
  split; [now apply cashFlows_nth; simpl; lia |].
  split; [now apply cashFlows_nth; simpl; lia |].
  split; [apply (cumulativeCashFlow_field defaultAssumptions 1) |].
  repeat split; num_compute.
Qed.

(** ** Payback: the first crossing *)

Lemma find_seq_S (f : nat -> bool) (start len : nat) :
  find f (seq (S start) len) = option_map S (find (fun k => f (S k)) (seq start len)).
Proof.
  revert start. induction len as [| len IH]; intros start; simpl; trivial.
  destruct (f (S start)); simpl; trivial.
Qed.

(** The loop, from index [i] with a running cumulative, against the search
    for the first crossing in the rest of the sequence. *)
Lemma generic_payback_loop_crossing (A : Arithmetic) (rest : list (num A)) :
  forall (i : nat) (cum : num A),
    Generic.payback_loop A rest i cum
    = match find (fun k => nonneg A (fold_left (plus A) (firstn (S k) rest) cum))
                 (seq 0 (List.length rest)) with
      | Some k =>
          option_map
            (fun cf =>
               plus A (index A (i + k))
                    (quot A (negate A (minus A (fold_left (plus A) (firstn (S k) rest) cum) cf))
                          cf))
            (nth_error rest k)
      | None => None
      end.
Proof.
  induction rest as [| cf rest IH]; intros i cum; [reflexivity |].
  cbn [Generic.payback_loop List.length seq find firstn fold_left].
  destruct (nonneg A (plus A cum cf)) eqn:E.
  - cbn [nth_error option_map]. now rewrite Nat.add_0_r.
  - rewrite IH, find_seq_S.
    destruct (find _ (seq 0 (List.length rest))) as [k |]; cbn [option_map]; trivial.
    cbn [nth_error firstn fold_left]. now rewrite Nat.add_succ_comm.
Qed.

Lemma generic_earlier_loop_crossing (A : Arithmetic) (rest : list (num A)) :
  forall (i : nat) (cum : num A),
    Generic.EarlierVariant.payback_loop A rest i cum
    = match find (fun k => nonneg A (fold_left (plus A) (firstn (S k) rest) cum))
                 (seq 0 (List.length rest)) with
      | Some k =>
          option_map
            (fun cf =>
               plus A (index A (i + k))
                    (quot A (fold_left (plus A) (firstn (S k) rest) cum) cf))
            (nth_error rest k)
      | None => None
      end.
Proof.
  induction rest as [| cf rest IH]; intros i cum; [reflexivity |].
  cbn [Generic.EarlierVariant.payback_loop List.length seq find firstn fold_left].
  destruct (nonneg A (plus A cum cf)) eqn:E.
  - cbn [nth_error option_map]. now rewrite Nat.add_0_r.
  - rewrite IH, find_seq_S.
    destruct (find _ (seq 0 (List.length rest))) as [k |]; cbn [option_map]; trivial.
    cbn [nth_error firstn fold_left]. now rewrite Nat.add_succ_comm.
Qed.

Lemma generic_crossing_loop_find (A : Arithmetic) (rest : list (num A)) :
  forall (i : nat) (cum : num A),
    Generic.crossing_loop A rest i cum
    = option_map (fun k => (i + k)%nat)
        (find (fun k => nonneg A (fold_left (plus A) (firstn (S k) rest) cum))
              (seq 0 (List.length rest))).
Proof.
  induction rest as [| cf rest IH]; intros i cum; [reflexivity |].
  cbn [Generic.crossing_loop List.length seq find firstn fold_left].
  destruct (nonneg A (plus A cum cf)) eqn:E.
  - cbn [option_map]. now rewrite Nat.add_0_r.
  - rewrite IH, find_seq_S.
    destruct (find _ (seq 0 (List.length rest))) as [k |]; cbn [option_map]; trivial.
    now rewrite Nat.add_succ_comm.
Qed.

Lemma generic_crossingYear_loop (A : Arithmetic) (cashFlows : list (num A))
    (initialInvestment : num A) :
  Generic.crossingYear A cashFlows initialInvestment
  = Generic.crossing_loop A cashFlows 0 (negate A initialInvestment).
Proof.
  rewrite generic_crossing_loop_find. unfold Generic.crossingYear, Generic.cumulativeAfter.
  now destruct (find _ _).
Qed.



(** C5, as the code has it.  In every arithmetic - binary64 and exact
    arithmetic alike - [calculatePaybackPeriod] of
    [FinancialCalculator.tsx] returns, at the first index [i] at which the
    running cumulative (started at [-initialInvestment]) is [>= 0], the value
    [i + (-(cumulative - cashFlows[i])) / cashFlows[i]], where [cumulative]
    is the running cumulative after [cashFlows[i]] was added; it returns null
    when the cumulative is [>= 0] at no index.  The cumulative before the
    crossing year is recomputed by subtraction, not kept. *)
Theorem calculatePaybackPeriod_crossing_recomputed (A : Arithmetic)
    (cashFlows : list (num A)) (initialInvestment : num A) :
  Generic.calculatePaybackPeriod A cashFlows initialInvestment
  = Generic.paybackAtCrossing A cashFlows initialInvestment.
Proof.
  unfold Generic.calculatePaybackPeriod, Generic.paybackAtCrossing, Generic.crossingYear,
    Generic.interpolated, Generic.cumulativeAfter.
  rewrite generic_payback_loop_crossing.
  now destruct (find _ _).
Qed.

(** C5 as stated fails on both copies of the calculator.

    - In binary64, with the cash flow [1e20] and the investment [0.1], the
      sum [-0.1 + 1e20] rounds to [1e20]; the code takes [1e20] off again,
      gets [0] for the previous cumulative and returns [0], where the
      cumulative before the crossing year ([-0.1]) gives [0.1 / 1e20].
    - The earlier copy returns [1 + 50 / 200 = 1.25] for the cash flows
      [100, 200, 300] and the investment [250], where the claimed formula
      gives [1 + 150 / 200 = 1.75]. *)
Lemma calculatePaybackPeriod_not_from_previous :
  (Generic.calculatePaybackPeriod Binary64.arithmetic [1e20%float] 0.1%float
   = Some 0%float
   /\ Generic.paybackFromPrevious Binary64.arithmetic [1e20%float] 0.1%float
      = Some 1.0000000000000001e-21%float
   /\ Generic.calculatePaybackPeriod Binary64.arithmetic [1e20%float] 0.1%float
      <> Generic.paybackFromPrevious Binary64.arithmetic [1e20%float] 0.1%float)
  /\ (Generic.EarlierVariant.calculatePaybackPeriod Binary64.arithmetic
        [100%float; 200%float; 300%float] 250%float
      = Some 1.25%float
      /\ Generic.paybackFromPrevious Binary64.arithmetic
           [100%float; 200%float; 300%float] 250%float
         = Some 1.75%float
      /\ Generic.EarlierVariant.calculatePaybackPeriod Binary64.arithmetic
           [100%float; 200%float; 300%float] 250%float
         <> Generic.paybackFromPrevious Binary64.arithmetic
              [100%float; 200%float; 300%float] 250%float).
Proof. repeat split; vm_compute; (reflexivity || discriminate). Qed.

(** Exact arithmetic is the rounded arithmetic whose rounding is the
    identity: there the generic calculator is the one the aggregator calls. *)
Lemma rounded_exact (x : number) : rounded Fin x = x.
Proof. now destruct x. Qed.

Lemma calculatePaybackPeriod_exact (cashFlows : list number) (initialInvestment : number) :
  Generic.calculatePaybackPeriod (roundedArithmetic Fin) cashFlows initialInvestment
  = calculatePaybackPeriod cashFlows initialInvestment.
Proof.
  unfold Generic.calculatePaybackPeriod, calculatePaybackPeriod.
  cbn [negate roundedArithmetic].
  generalize 0, (- initialInvestment).
  induction cashFlows as [| cf rest IH]; intros i cum; [reflexivity |].
  cbn [Generic.payback_loop payback_loop roundedArithmetic plus minus quot negate nonneg index].
  rewrite !rounded_exact, IH. reflexivity.
Qed.

(** The crossing is in the second year here: 100 + 200 - 250 >= 0, and the
    period is [1 + 150 / 200]; with an investment of 301 there is no crossing
    in two years. *)
Example calculatePaybackPeriod_example :
  option_map (number_eqb (lit 1.75))
             (calculatePaybackPeriod [lit 100; lit 200; lit 300] (lit 250))
  = Some true
  /\ calculatePaybackPeriod [lit 100; lit 200] (lit 301) = None
  /\ Generic.calculatePaybackPeriod Binary64.arithmetic
       [100%float; 200%float; 300%float] 250%float = Some 1.75%float
  /\ Generic.calculatePaybackPeriod Binary64.arithmetic
       [100%float; 200%float] 301%float = None.
Proof. repeat split; vm_compute; reflexivity. Qed.

(** ** The IRR solver: when it returns null *)

Section NewtonFacts.

Variable cashFlows : list number.

Lemma irr_loop_unfold (n : nat) (guess : number) :
  irr_loop cashFlows (S n) guess
  = if npvConverged cashFlows guess then Some guess
    else if zeroDerivative cashFlows guess then None
    else if stepConverged cashFlows guess then Some (newtonStep cashFlows guess)
    else irr_loop cashFlows n (newtonStep cashFlows guess).
Proof. reflexivity. Qed.

Lemma continues_true (guess : number) :
  continues cashFlows guess = true
  <-> npvConverged cashFlows guess = false /\ zeroDerivative cashFlows guess = false
      /\ stepConverged cashFlows guess = false.
Proof.
  unfold continues.
  destruct (npvConverged cashFlows guess), (zeroDerivative cashFlows guess), (stepConverged cashFlows guess);
    simpl; intuition congruence.
Qed.

(** Shifting a run by its first iteration. *)
Lemma run_shift (P : number -> Prop) (guess : number) (k : nat) :
  (forall j, j < S k -> P (newtonFrom cashFlows guess j))
  <-> P guess /\ forall j, j < k -> P (newtonFrom cashFlows (newtonStep cashFlows guess) j).
Proof.
  split.
  - intros H. split; [apply (H 0); lia |].
    intros j Hj. apply (H (S j)). lia.
  - intros [H0 H] [| j] Hj; [exact H0 |]. apply H. lia.
Qed.

Lemma irr_loop_Some (n : nat) : forall (guess r : number),
  irr_loop cashFlows n guess = Some r
  <-> exists k, k < n
        /\ (forall j, j < k -> continues cashFlows (newtonFrom cashFlows guess j) = true)
        /\ convergesWith cashFlows (newtonFrom cashFlows guess k) r.
Proof.
  induction n as [| n IH]; intros guess r.
  - simpl. split; [discriminate | intros (k & Hk & _); lia].
  - rewrite irr_loop_unfold. unfold convergesWith. split.
    + destruct (npvConverged cashFlows guess) eqn:En.
      { intros [= <-]. exists 0. simpl. rewrite En.
        repeat split; [lia | intros j Hj; lia | now left]. }
      destruct (zeroDerivative cashFlows guess) eqn:Ez; [discriminate |].
      destruct (stepConverged cashFlows guess) eqn:Es.
      { intros [= <-]. exists 0. simpl. rewrite En, Ez, Es.
        repeat split; [lia | intros j Hj; lia | right; auto]. }
      intros H. apply IH in H. destruct H as (k & Hk & Hc & He).
      exists (S k). split; [lia |]. split; [| exact He].
      apply (run_shift (fun g => continues cashFlows g = true)). split; [| exact Hc].
      apply continues_true; auto.
    + intros (k & Hk & Hc & He). destruct k as [| k].
      * simpl in He.
        destruct He as [[En ->] | (En & Ez & Es & ->)].
        { now rewrite En. }
        { now rewrite En, Ez, Es. }
      * apply (run_shift (fun g => continues cashFlows g = true)) in Hc. destruct Hc as [H0 Hc].
        apply continues_true in H0. destruct H0 as (En & Ez & Es).
        rewrite En, Ez, Es. apply IH.
        exists k. split; [lia |]. split; [exact Hc | exact He].
Qed.

Lemma irr_loop_None (n : nat) : forall (guess : number),
  irr_loop cashFlows n guess = None
  <-> (exists k, k < n
         /\ (forall j, j < k -> continues cashFlows (newtonFrom cashFlows guess j) = true)
         /\ hitsZeroDerivative cashFlows (newtonFrom cashFlows guess k))
      \/ (forall j, j < n -> continues cashFlows (newtonFrom cashFlows guess j) = true).
Proof.
  induction n as [| n IH]; intros guess.
  - simpl. split; [intros _; right; intros j Hj; lia | reflexivity].
  - rewrite irr_loop_unfold. unfold hitsZeroDerivative. split.
    + destruct (npvConverged cashFlows guess) eqn:En; [discriminate |].
      destruct (zeroDerivative cashFlows guess) eqn:Ez.
      { intros _. left. exists 0. simpl. rewrite En, Ez.
        repeat split; [lia | intros j Hj; lia]. }
      destruct (stepConverged cashFlows guess) eqn:Es; [discriminate |].
      assert (C : continues cashFlows guess = true) by (apply continues_true; auto).
      intros H. apply IH in H. destruct H as [(k & Hk & Hc & Hz) | Hall].
      * left. exists (S k). split; [lia |]. split; [| exact Hz].
        apply (run_shift (fun g => continues cashFlows g = true)). split; assumption.
      * right. apply (run_shift (fun g => continues cashFlows g = true)). split; assumption.
    + intros [(k & Hk & Hc & Hz) | Hall].
      * destruct k as [| k].
        { simpl in Hz. destruct Hz as [En Ez]. now rewrite En, Ez. }
        apply (run_shift (fun g => continues cashFlows g = true)) in Hc. destruct Hc as [H0 Hc].
        apply continues_true in H0. destruct H0 as (En & Ez & Es).
        rewrite En, Ez, Es. apply IH. left.
        exists k. split; [lia |]. split; assumption.
      * apply (run_shift (fun g => continues cashFlows g = true)) in Hall. destruct Hall as [H0 Hall].
        apply continues_true in H0. destruct H0 as (En & Ez & Es).
        rewrite En, Ez, Es. apply IH. now right.
Qed.

End NewtonFacts.

Lemma calculateIRR_Some (cashFlows : list number) (r : number) :
  calculateIRR cashFlows = Some r
  <-> exists k, k < 100
        /\ (forall j, j < k -> continues cashFlows (guessAt cashFlows j) = true)
        /\ convergesWith cashFlows (guessAt cashFlows k) r.
Proof. apply irr_loop_Some. Qed.

(** C4.  [calculateIRR] is a total function (nothing is thrown).  It returns
    null exactly when, after iterations that all went on, an iteration below
    the cap of 100 takes a Newton step and finds the derivative equal to
    zero, or all 100 iterations went on without meeting either tolerance
    ([|NPV| < 1e-6] or a change of the guess below [1e-6]).  It returns a
    rate exactly when some iteration below the cap meets a tolerance, and the
    rate is then the converged one: the current guess for the NPV test, the
    updated guess for the step test. *)
Theorem calculateIRR_null_iff (cashFlows : list number) :
  (calculateIRR cashFlows = None
   <-> (exists k, k < 100
          /\ (forall j, j < k -> continues cashFlows (guessAt cashFlows j) = true)
          /\ hitsZeroDerivative cashFlows (guessAt cashFlows k))
       \/ (forall j, j < 100 -> continues cashFlows (guessAt cashFlows j) = true))
  /\ (forall r,
        calculateIRR cashFlows = Some r
        <-> exists k, k < 100
              /\ (forall j, j < k -> continues cashFlows (guessAt cashFlows j) = true)
              /\ convergesWith cashFlows (guessAt cashFlows k) r).
Proof.
  split.
  - apply irr_loop_None.
  - intros r. apply irr_loop_Some.
Qed.

(** The three outcomes on small inputs: a rate found by the NPV test, null
    from a zero derivative (a lone initial outlay), and null from the cap
    (a NaN cash flow never meets a tolerance). *)
Example calculateIRR_outcomes :
  option_map (number_eqb (lit 0.1)) (calculateIRR [lit (-100); lit 110]) = Some true
  /\ calculateIRR [lit (-100)] = None
  /\ hitsZeroDerivative [lit (-100)] (guessAt [lit (-100)] 0)
  /\ calculateIRR [lit (-100); NaN] = None
  /\ forallb (fun j => continues [lit (-100); NaN] (guessAt [lit (-100); NaN] j))
             (seq 0 100) = true.
Proof. repeat split; vm_compute; reflexivity. Qed.

(** ** Payback in correctly rounded arithmetic *)

(** Goals on canonical rationals are moved to [Q], where linear arithmetic
    is decided. *)
Ltac qc2q :=
  try apply Qc_is_canon;
  unfold Qclt, Qcle, Qcdiv, Qcminus, Qcplus, Qcmult, Qcopp, Qcinv, Qc_of_nat, Q2Qc in *;
  cbn [this] in *;
  repeat (rewrite ?Qred_correct in * ).

Lemma Qc_of_nat_S (n : nat) : Qc_of_nat (S n) = (Qc_of_nat n + 1)%Qc.
Proof.
  qc2q. rewrite Nat2Z.inj_succ. unfold Z.succ. rewrite inject_Z_plus. reflexivity.
Qed.

Lemma Qc_of_nat_nonneg (n : nat) : (0 <= Qc_of_nat n)%Qc.
Proof.
  qc2q. change 0%Q with (inject_Z 0). rewrite <- Zle_Qle. lia.
Qed.

Lemma Qc_of_nat_le (n m : nat) : n <= m -> (Qc_of_nat n <= Qc_of_nat m)%Qc.
Proof.
  intros H. qc2q. rewrite <- Zle_Qle. lia.
Qed.

Lemma Qcdiv_le_1 (x y : Qc) : (0 < y -> x <= y -> x / y <= 1)%Qc.
Proof. intros Hy Hx. qc2q. apply Qle_shift_div_r; lra. Qed.

Lemma Qcdiv_nonneg (x z : Qc) : (0 <= x)%Qc -> (0 < z)%Qc -> (0 <= x / z)%Qc.
Proof.
  intros Hx Hz. qc2q.
  apply Qmult_le_0_compat; [exact Hx |].
  apply Qlt_le_weak, Qinv_lt_0_compat, Hz.
Qed.

Lemma Qcleb_false_lt (x y : Qc) : Qcleb x y = false -> (y < x)%Qc.
Proof.
  intros E. apply Qcnot_le_lt. intros L. apply Qcleb_le in L. congruence.
Qed.

Lemma num_le_Fin (x y : Qc) : num_le (Fin x) (Fin y) = true <-> (x <= y)%Qc.
Proof. unfold num_le. now rewrite num_ge_Fin, Qcleb_le. Qed.

Lemma num_le_cases (x y : number) :
  num_le x y
  = match x, y with
    | NaN, _ | _, NaN => false
    | Fin a, Fin b => Qcleb a b
    | NInf, _ | _, PInf => true
    | _, _ => false
    end.
Proof.
  destruct x as [a | | |], y as [b | | |]; try reflexivity.
  unfold num_le. apply num_ge_Fin.
Qed.

Lemma num_le_trans (x y z : number) :
  num_le x y = true -> num_le y z = true -> num_le x z = true.
Proof.
  rewrite !num_le_cases.
  destruct x as [a | | |], y as [b | | |], z as [c | | |]; trivial; try discriminate.
  rewrite !Qcleb_le. apply Qcle_trans.
Qed.

Lemma num_le_between (s : number) (a b : Qc) :
  num_le (Fin a) s = true -> num_le s (Fin b) = true ->
  exists q : Qc, s = Fin q /\ (a <= q)%Qc /\ (q <= b)%Qc.
Proof.
  rewrite !num_le_cases. destruct s as [q | | |]; try discriminate.
  rewrite !Qcleb_le. intros Ha Hb. now exists q.
Qed.

Lemma nonneg_Fin (q : Qc) : (Fin q >=? zero) = true <-> (0 <= q)%Qc.
Proof. unfold zero. now rewrite num_ge_Fin, Qcleb_le. Qed.



Section RoundedFacts.

Variable rnd : Qc -> number.

Hypothesis R : Rounding rnd.

Lemma rnd_between (a b x : Qc) :
  representable rnd a -> representable rnd b -> (a <= x)%Qc -> (x <= b)%Qc ->
  exists q : Qc, rnd x = Fin q /\ representable rnd q /\ (a <= q)%Qc /\ (q <= b)%Qc.
Proof.
  intros Ha Hb La Lb.
  pose proof (rnd_monotone rnd R _ _ La) as Ma. pose proof (rnd_monotone rnd R _ _ Lb) as Mb.
  rewrite Ha in Ma. rewrite Hb in Mb.
  destruct (num_le_between _ _ _ Ma Mb) as (q & E & L).
  exists q. split; [exact E |]. split; [| exact L].
  exact (rnd_idempotent rnd R _ _ E).
Qed.

Lemma representable_0 : representable rnd 0%Qc.
Proof. exact (rnd_0 rnd R). Qed.

Lemma representable_1 : representable rnd 1%Qc.
Proof. exact (rnd_1 rnd R). Qed.

Lemma representable_opp (q : Qc) : representable rnd q -> representable rnd (- q)%Qc.
Proof. unfold representable. intros H. now rewrite (rnd_opp rnd R), H. Qed.

Lemma rnd_not_NaN (q : Qc) : rnd q <> NaN.
Proof.
  intros E. pose proof (rnd_monotone rnd R q q (Qcle_refl q)) as M.
  rewrite E in M. discriminate.
Qed.

Lemma stillBelow_investment (initialInvestment : Qc) :
  representable rnd initialInvestment -> (0 < initialInvestment)%Qc ->
  stillBelow rnd (- Fin initialInvestment).
Proof.
  intros Ri Hi. cbn [num_neg stillBelow]. split.
  - revert Hi. qc2q. intros. lra.
  - now apply representable_opp.
Qed.

Lemma stillBelow_next (cum : number) (cf : Qc) :
  stillBelow rnd cum ->
  (rounded rnd (cum + Fin cf) >=? zero) = false ->
  stillBelow rnd (rounded rnd (cum + Fin cf)).
Proof.
  intros Hb E. destruct cum as [c | | |]; simpl in Hb; try contradiction; [| exact I].
  cbn [num_add rounded] in *.
  pose proof (rnd_not_NaN (c + cf)) as N.
  pose proof (rnd_idempotent rnd R (c + cf)) as Id.
  destruct (rnd (c + cf)) as [q | | |]; try discriminate; try congruence; [| exact I].
  split; [| now apply (Id q)].
  unfold zero in E. rewrite num_ge_Fin in E. now apply Qcleb_false_lt.
Qed.

(** At a crossing the year's cash flow is positive, the cumulative after the
    year lies between [0] and the cash flow, the recomputed previous
    cumulative between minus the cash flow and [0], and the interpolated
    fraction between [0] and [1]. *)
Lemma crossing_fraction_rounded (cum : number) (cf : Qc) :
  stillBelow rnd cum -> representable rnd cf ->
  (rounded rnd (cum + Fin cf) >=? zero) = true ->
  exists fraction : Qc,
    rounded rnd (- rounded rnd (rounded rnd (cum + Fin cf) - Fin cf) / Fin cf)
    = Fin fraction
    /\ (0 <= fraction)%Qc /\ (fraction <= 1)%Qc.
Proof.
  intros Hb Hcf E.
  destruct cum as [c | | |]; simpl in Hb; try contradiction;
    [| simpl in E; discriminate].
  destruct Hb as [Hc Rc]. cbn [num_add rounded] in *.
  assert (Pcf : (0 < cf)%Qc).
  { apply Qcnot_le_lt. intros Lcf.
    assert (L : (c + cf <= c)%Qc) by (revert Lcf; qc2q; intros; lra).
    pose proof (rnd_monotone rnd R _ _ L) as M. rewrite Rc in M.
    destruct (rnd (c + cf)) as [q | | |]; try discriminate.
    apply nonneg_Fin in E. apply num_le_Fin in M.
    revert Hc E M. qc2q. intros. lra. }
  assert (S : exists s : Qc, rnd (c + cf) = Fin s /\ (0 <= s)%Qc /\ (s <= cf)%Qc).
  { assert (L : (c + cf <= cf)%Qc) by (revert Hc; qc2q; intros; lra).
    pose proof (rnd_monotone rnd R _ _ L) as M. rewrite Hcf in M.
    destruct (rnd (c + cf)) as [s | | |]; try discriminate.
    exists s. split; [reflexivity |]. split; [now apply nonneg_Fin | now apply num_le_Fin]. }
  destruct S as (s & Es & Hs0 & Hs1). rewrite Es.
  unfold num_sub. cbn [num_neg num_add rounded].
  destruct (rnd_between (- cf) 0 (s + - cf))%Qc as (t & Et & Rt & Ht0 & Ht1).
  { now apply representable_opp. }
  { apply representable_0. }
  { revert Hs0. qc2q. intros. lra. }
  { revert Hs1. qc2q. intros. lra. }
  rewrite Et. cbn [num_neg num_div].
  assert (Ncf : Qceqb cf 0 = false).
  { apply Qceqb_neq. intros ->. revert Pcf. qc2q. intros. lra. }
  rewrite Ncf. cbn [rounded].
  destruct (rnd_between 0 1 (- t / cf))%Qc as (f & Ef & Rf & Hf0 & Hf1).
  { apply representable_0. }
  { apply representable_1. }
  { apply Qcdiv_nonneg; [| exact Pcf]. revert Ht1. qc2q. intros. lra. }
  { apply Qcdiv_le_1; [exact Pcf |]. revert Ht0. qc2q. intros. lra. }
  exists f. repeat split; assumption.
Qed.

(** The value returned for a crossing in year [n] lies between [n] and
    [n + 1]. *)
Lemma rounded_index_fraction (n : nat) (fraction : Qc) :
  representable rnd (Qc_of_nat n) -> representable rnd (Qc_of_nat (S n)) ->
  (0 <= fraction)%Qc -> (fraction <= 1)%Qc ->
  num_le (of_nat n) (rounded rnd (of_nat n + Fin fraction)) = true
  /\ num_le (rounded rnd (of_nat n + Fin fraction)) (of_nat (S n)) = true.
Proof.
  intros Rn RS H0 H1. unfold of_nat. cbn [num_add rounded].
  destruct (rnd_between (Qc_of_nat n) (Qc_of_nat (S n)) (Qc_of_nat n + fraction)%Qc)
    as (q & Eq & _ & L0 & L1); trivial.
  { revert H0. generalize (Qc_of_nat n). intros a. qc2q. intros. lra. }
  { rewrite Qc_of_nat_S. revert H1. generalize (Qc_of_nat n). intros a. qc2q. intros. lra. }
  rewrite Eq. split; now apply num_le_Fin.
Qed.

(** A value the loop returns is the rounded [i + fraction] of a crossing
    year [i] inside the sequence, with a fraction between [0] and [1]. *)
Lemma rounded_payback_loop_bounds (cashFlows : list Qc) :
  Forall (representable rnd) cashFlows ->
  forall (i : nat) (cum p : number),
    stillBelow rnd cum ->
    Generic.payback_loop (roundedArithmetic rnd) (map Fin cashFlows) i cum = Some p ->
    exists (k : nat) (fraction : Qc),
      k < List.length cashFlows
      /\ Generic.crossing_loop (roundedArithmetic rnd) (map Fin cashFlows) i cum
         = Some (i + k)%nat
      /\ p = rounded rnd (of_nat (i + k) + Fin fraction)
      /\ (0 <= fraction)%Qc /\ (fraction <= 1)%Qc.
Proof.
  induction 1 as [| cf rest Hcf _ IH]; intros i cum p Hb H; [discriminate |].
  cbn [map Generic.payback_loop Generic.crossing_loop roundedArithmetic
       plus minus quot negate nonneg index] in *.
  destruct (rounded rnd (cum + Fin cf) >=? zero) eqn:E.
  - destruct (crossing_fraction_rounded cum cf Hb Hcf E) as (f & Ef & Hf0 & Hf1).
    injection H as <-.
    exists 0, f. rewrite Nat.add_0_r.
    split; [simpl; lia |]. split; [reflexivity |].
    split; [| split; assumption].
    pose proof (rnd_not_NaN f) as N. clear - Ef N.
    destruct (rounded rnd (- rounded rnd (rounded rnd (cum + Fin cf) - Fin cf) / Fin cf))
      as [q | | |] eqn:D; try discriminate.
    injection Ef as ->. reflexivity.
  - destruct (IH (S i) _ p (stillBelow_next cum cf Hb E) H)
      as (k & fraction & Hk & Hc & Hp & Hf).
    exists (S k), fraction. rewrite <- Nat.add_succ_comm.
    split; [simpl; lia |]. split; [exact Hc |]. split; assumption.
Qed.

(** *** Raising an entry *)






End RoundedFacts.

(** Exact arithmetic is a rounded arithmetic. *)
Lemma exact_rounding : Rounding Fin.
Proof.
  constructor.
  - intros x y L. now apply num_le_Fin.
  - reflexivity.
  - intros x y [= ->]. reflexivity.
  - reflexivity.
  - reflexivity.
Qed.

(** *** Rounding to binary64 is such a rounding *)

Section Binary64Rounding.

Local Open Scope Q_scope.

Lemma pow2_pos (z : Z) : 0 < pow2 z.
Proof. apply Qpower_0_lt. reflexivity. Qed.

Lemma pow2_add (a b : Z) : pow2 (a + b) == pow2 a * pow2 b.
Proof. apply Qpower_plus. discriminate. Qed.

Lemma pow2_le (a b : Z) : (a <= b)%Z -> pow2 a <= pow2 b.
Proof. intros H. apply Qpower_le_compat_l; [exact H | discriminate]. Qed.

Lemma pow2_lt (a b : Z) : (a < b)%Z -> pow2 a < pow2 b.
Proof. intros H. apply Qpower_lt_compat_l; [exact H | reflexivity]. Qed.

Lemma pow2_Z (a : Z) : (0 <= a)%Z -> pow2 a == inject_Z (2 ^ a).
Proof. intros H. unfold pow2. now rewrite Zpower_Qpower. Qed.

Lemma ilog2_spec (x : Q) : 0 < x -> pow2 (ilog2 x) <= x /\ x < pow2 (ilog2 x + 1).
Proof.
  intros Hx. destruct x as [n d].
  assert (Hn : (0 < n)%Z).
  { unfold Qlt in Hx. simpl in Hx. lia. }
  unfold ilog2. cbn [Qnum Qden].
  set (a := Z.log2 n). set (b := Z.log2 (Zpos d)).
  assert (Ha : (0 <= a)%Z) by apply Z.log2_nonneg.
  assert (Hb : (0 <= b)%Z) by apply Z.log2_nonneg.
  destruct (Z.log2_spec n Hn) as [La Ua]. fold a in La, Ua.
  destruct (Z.log2_spec (Zpos d) ltac:(lia)) as [Lb Ub]. fold b in Lb, Ub.
  assert (Px : n # d == inject_Z n / inject_Z (Zpos d)) by apply Qmake_Qdiv.
  assert (Pd : 0 < inject_Z (Zpos d)) by (unfold Qlt; simpl; lia).
  (* strict bounds from the two logarithms *)
  assert (Lo : pow2 (a - b - 1) < n # d).
  { rewrite Px. apply Qlt_shift_div_l; [exact Pd |].
    apply Qlt_le_trans with (pow2 (a - b - 1) * pow2 (b + 1)).
    - apply Qmult_lt_l; [apply pow2_pos |].
      rewrite (pow2_Z (b + 1)) by lia. rewrite <- Zlt_Qlt. exact Ub.
    - rewrite <- pow2_add. replace (a - b - 1 + (b + 1))%Z with a by lia.
      rewrite (pow2_Z a) by lia. rewrite <- Zle_Qle. exact La. }
  assert (Up : n # d < pow2 (a - b + 1)).
  { rewrite Px. apply Qlt_shift_div_r; [exact Pd |].
    apply Qlt_le_trans with (pow2 (a - b + 1) * pow2 b).
    - rewrite <- pow2_add. replace (a - b + 1 + b)%Z with (a + 1)%Z by lia.
      rewrite (pow2_Z (a + 1)) by lia. rewrite <- Zlt_Qlt. exact Ua.
    - apply Qmult_le_l; [apply pow2_pos |].
      rewrite (pow2_Z b) by lia. rewrite <- Zle_Qle. exact Lb. }
  destruct (Qle_bool (pow2 (a - b)) (n # d)) eqn:E.
  - apply Qle_bool_iff in E. split; [exact E | exact Up].
  - split; [apply Qlt_le_weak; exact Lo |].
    replace (a - b - 1 + 1)%Z with (a - b)%Z by lia.
    apply Qnot_le_lt. intros L. apply Qle_bool_iff in L. congruence.
Qed.

Lemma ilog2_unique (x : Q) (k : Z) :
  0 < x -> pow2 k <= x -> x < pow2 (k + 1) -> ilog2 x = k.
Proof.
  intros Hx L U. destruct (ilog2_spec x Hx) as [L' U'].
  destruct (Z.lt_trichotomy (ilog2 x) k) as [H | [H | H]]; trivial.
  - exfalso. assert (P : pow2 (ilog2 x + 1) <= pow2 k) by (apply pow2_le; lia).
    lra.
  - exfalso. assert (P : pow2 (k + 1) <= pow2 (ilog2 x)) by (apply pow2_le; lia).
    lra.
Qed.

Lemma ilog2_mono (x y : Q) : 0 < x -> x <= y -> (ilog2 x <= ilog2 y)%Z.
Proof.
  intros Hx L. assert (Hy : 0 < y) by lra.
  destruct (ilog2_spec x Hx) as [Lx Ux]. destruct (ilog2_spec y Hy) as [Ly Uy].
  destruct (Z.le_gt_cases (ilog2 x) (ilog2 y)) as [H | H]; trivial.
  exfalso. assert (P : pow2 (ilog2 y + 1) <= pow2 (ilog2 x)) by (apply pow2_le; lia).
  lra.
Qed.

Lemma cexp_mono (x y : Q) : 0 < x -> x <= y -> (cexp x <= cexp y)%Z.
Proof. intros Hx L. pose proof (ilog2_mono x y Hx L). unfold cexp. lia. Qed.

Lemma nearest_even_bounds (q : Q) :
  (Qfloor q <= nearest_even q <= Qfloor q + 1)%Z.
Proof.
  unfold nearest_even.
  destruct (2 * (q - inject_Z (Qfloor q)) ?= 1); [destruct (Z.even (Qfloor q)) | |]; lia.
Qed.

Lemma nearest_even_Z (z : Z) : nearest_even (inject_Z z) = z.
Proof.
  unfold nearest_even. rewrite Qfloor_Z.
  replace (2 * (inject_Z z - inject_Z z) ?= 1) with Lt; [reflexivity |].
  symmetry. apply (proj1 (Qlt_alt _ _)). lra.
Qed.

Lemma nearest_even_comp (q q' : Q) : q == q' -> nearest_even q = nearest_even q'.
Proof.
  intros E. unfold nearest_even.
  assert (F : Qfloor q = Qfloor q') by (now rewrite E).
  rewrite F.
  replace (2 * (q' - inject_Z (Qfloor q')) ?= 1) with (2 * (q - inject_Z (Qfloor q')) ?= 1);
    [reflexivity |].
  now rewrite E.
Qed.

Lemma nearest_even_mono (q q' : Q) : q <= q' -> (nearest_even q <= nearest_even q')%Z.
Proof.
  intros L.
  pose proof (Qfloor_resp_le q q' L) as F.
  pose proof (nearest_even_bounds q) as B. pose proof (nearest_even_bounds q') as B'.
  destruct (Z.eq_dec (Qfloor q) (Qfloor q')) as [E | N]; [| lia].
  unfold nearest_even. rewrite <- E.
  destruct (2 * (q - inject_Z (Qfloor q)) ?= 1) eqn:C;
    destruct (2 * (q' - inject_Z (Qfloor q)) ?= 1) eqn:C';
    try (destruct (Z.even (Qfloor q))); try lia;
    try (apply (proj2 (Qeq_alt _ _)) in C); try (apply (proj2 (Qlt_alt _ _)) in C);
    try (apply (proj2 (Qgt_alt _ _)) in C);
    try (apply (proj2 (Qeq_alt _ _)) in C'); try (apply (proj2 (Qlt_alt _ _)) in C');
    try (apply (proj2 (Qgt_alt _ _)) in C');
    exfalso; lra.
Qed.

Lemma nearest_even_nonneg (q : Q) : 0 <= q -> (0 <= nearest_even q)%Z.
Proof.
  intros H. pose proof (nearest_even_mono 0 q H) as M.
  change 0 with (inject_Z 0) in M. now rewrite nearest_even_Z in M.
Qed.

Lemma Qdiv_le_compat (x y u : Q) : 0 < u -> x <= y -> x / u <= y / u.
Proof.
  intros Hu L. unfold Qdiv. apply Qmult_le_compat_r; [exact L |].
  apply Qlt_le_weak, Qinv_lt_0_compat, Hu.
Qed.

Lemma round_pos_zero (x : Q) : x == 0 -> round_pos x == 0.
Proof.
  intros E. unfold round_pos.
  rewrite (nearest_even_comp (x / pow2 (cexp x)) (inject_Z 0)).
  - rewrite nearest_even_Z. ring.
  - unfold Qdiv. transitivity (0 * / pow2 (cexp x)).
    + apply Qmult_comp; [exact E | reflexivity].
    + change (inject_Z 0) with 0. ring.
Qed.

Lemma round_pos_nonneg (x : Q) : 0 <= x -> 0 <= round_pos x.
Proof.
  intros H. unfold round_pos.
  apply Qmult_le_0_compat; [| apply Qlt_le_weak, pow2_pos].
  change 0 with (inject_Z 0). rewrite <- Zle_Qle.
  apply nearest_even_nonneg.
  apply Qle_shift_div_l; [apply pow2_pos | lra].
Qed.

(** The rounded value stays within the binade of [x]. *)
Lemma round_pos_upper (x : Q) : 0 < x -> round_pos x <= pow2 (cexp x + 53).
Proof.
  intros Hx. destruct (ilog2_spec x Hx) as [_ U].
  assert (B : x <= pow2 (cexp x + 53)).
  { apply Qlt_le_weak. eapply Qlt_le_trans; [exact U |].
    apply pow2_le. unfold cexp. lia. }
  unfold round_pos.
  rewrite Z.add_comm, pow2_add.
  apply Qmult_le_compat_r; [| apply Qlt_le_weak, pow2_pos].
  rewrite (pow2_Z 53) by lia. rewrite <- Zle_Qle.
  rewrite <- (nearest_even_Z (2 ^ 53)).
  apply nearest_even_mono.
  apply Qle_shift_div_r; [apply pow2_pos |].
  rewrite <- (pow2_Z 53) by lia. rewrite <- pow2_add, Z.add_comm. exact B.
Qed.

Lemma round_pos_lower (x : Q) :
  0 < x -> (-1074 < cexp x)%Z -> pow2 (cexp x + 52) <= round_pos x.
Proof.
  intros Hx Hc. destruct (ilog2_spec x Hx) as [L _].
  assert (B : pow2 (cexp x + 52) <= x).
  { eapply Qle_trans; [| exact L]. apply pow2_le. unfold cexp in *. lia. }
  unfold round_pos.
  rewrite Z.add_comm, pow2_add.
  apply Qmult_le_compat_r; [| apply Qlt_le_weak, pow2_pos].
  rewrite (pow2_Z 52) by lia. rewrite <- Zle_Qle.
  rewrite <- (nearest_even_Z (2 ^ 52)) at 1.
  apply nearest_even_mono.
  apply Qle_shift_div_l; [apply pow2_pos |].
  rewrite <- (pow2_Z 52) by lia. rewrite <- pow2_add, Z.add_comm. exact B.
Qed.

Lemma round_pos_mono (x y : Q) : 0 <= x -> x <= y -> round_pos x <= round_pos y.
Proof.
  intros Hx L.
  destruct (Qlt_le_dec 0 x) as [Px | Zx].
  - pose proof (cexp_mono x y Px L) as C.
    destruct (Z.eq_dec (cexp x) (cexp y)) as [E | N].
    + unfold round_pos. rewrite E.
      apply Qmult_le_compat_r; [| apply Qlt_le_weak, pow2_pos].
      rewrite <- Zle_Qle. apply nearest_even_mono.
      apply Qdiv_le_compat; [apply pow2_pos | exact L].
    + apply Qle_trans with (pow2 (cexp x + 53)); [now apply round_pos_upper |].
      apply Qle_trans with (pow2 (cexp y + 52)); [apply pow2_le; lia |].
      apply round_pos_lower; [lra |]. unfold cexp in *. lia.
  - rewrite (round_pos_zero x) by lra. apply round_pos_nonneg. lra.
Qed.

Lemma ilog2_comp (x y : Q) : 0 < x -> x == y -> ilog2 y = ilog2 x.
Proof.
  intros Hx E. destruct (ilog2_spec x Hx) as [L U].
  apply ilog2_unique; lra.
Qed.

Lemma round_pos_comp (x y : Q) : 0 <= x -> x == y -> round_pos x == round_pos y.
Proof.
  intros Hx E. destruct (Qlt_le_dec 0 x) as [Px | Zx].
  - unfold round_pos, cexp. rewrite (ilog2_comp x y Px E).
    rewrite (nearest_even_comp (y / pow2 (Z.max (ilog2 x - 52) (-1074)))
                               (x / pow2 (Z.max (ilog2 x - 52) (-1074)))).
    + reflexivity.
    + unfold Qdiv. apply Qmult_comp; [now symmetry | reflexivity].
  - rewrite (round_pos_zero x), (round_pos_zero y) by lra. reflexivity.
Qed.

(** A multiple of the last place is left unchanged. *)
Lemma round_pos_multiple (y : Q) (z : Z) :
  y == inject_Z z * pow2 (cexp y) -> round_pos y == y.
Proof.
  intros E. unfold round_pos.
  rewrite (nearest_even_comp (y / pow2 (cexp y)) (inject_Z z)).
  - rewrite nearest_even_Z. now symmetry.
  - apply Qmult_inj_r with (pow2 (cexp y)).
    + pose proof (pow2_pos (cexp y)). lra.
    + unfold Qdiv. rewrite <- Qmult_assoc, (Qmult_comm (/ _)), Qmult_inv_r.
      * rewrite Qmult_1_r. exact E.
      * pose proof (pow2_pos (cexp y)). lra.
Qed.

(** A number with a significand of at most 53 bits and an exponent of at
    least -1074 is left unchanged. *)
Lemma round_pos_fix (m c : Z) :
  (0 < m <= 2 ^ 53)%Z -> (-1074 <= c)%Z ->
  round_pos (inject_Z m * pow2 c) == inject_Z m * pow2 c.
Proof.
  intros Hm Hc. remember (inject_Z m * pow2 c) as y eqn:Dy.
  assert (Ey : y == inject_Z m * pow2 c) by (now rewrite Dy).
  clear Dy.
  assert (Py : 0 < y).
  { rewrite Ey. apply Qmult_lt_0_compat; [| apply pow2_pos].
    change 0 with (inject_Z 0). rewrite <- Zlt_Qlt. lia. }
  destruct (ilog2_spec y Py) as [L U].
  destruct (Z.eq_dec m (2 ^ 53)) as [E | N].
  - (* the significand is 2^53: the number opens the next binade *)
    assert (Ey' : y == pow2 (c + 53)).
    { rewrite Ey, E, <- (pow2_Z 53) by lia. rewrite Z.add_comm. now rewrite pow2_add. }
    assert (I : ilog2 y = (c + 53)%Z).
    { apply ilog2_unique; trivial.
      - rewrite Ey'. apply Qle_refl.
      - rewrite Ey'. apply pow2_lt. lia. }
    apply (round_pos_multiple y (2 ^ 52)).
    unfold cexp. rewrite I. replace (Z.max (c + 53 - 52) (-1074)) with (c + 1)%Z by lia.
    rewrite Ey', <- (pow2_Z 52) by lia. rewrite <- pow2_add.
    now replace (52 + (c + 1))%Z with (c + 53)%Z by lia.
  - (* the significand is below 2^53: the last place is at most [2^c] *)
    assert (Uy : y < pow2 (c + 53)).
    { rewrite Ey, Z.add_comm, pow2_add.
      apply Qmult_lt_compat_r; [apply pow2_pos |].
      rewrite (pow2_Z 53) by lia. rewrite <- Zlt_Qlt. lia. }
    assert (I : (ilog2 y < c + 53)%Z).
    { destruct (Z.lt_ge_cases (ilog2 y) (c + 53)) as [H | H]; trivial.
      exfalso. assert (P : pow2 (c + 53) <= pow2 (ilog2 y)) by (apply pow2_le; lia).
      lra. }
    assert (C : (cexp y <= c)%Z) by (unfold cexp; lia).
    apply (round_pos_multiple y (m * 2 ^ (c - cexp y))).
    rewrite Ey at 1.
    rewrite inject_Z_mult, <- (pow2_Z (c - cexp y)) by lia.
    rewrite <- Qmult_assoc, <- pow2_add.
    now replace (c - cexp y + cexp y)%Z with c by lia.
Qed.

Lemma nearest_scaled_upper (x : Q) :
  0 < x -> (nearest_even (x / pow2 (cexp x)) <= 2 ^ 53)%Z.
Proof.
  intros Hx. destruct (ilog2_spec x Hx) as [_ U].
  rewrite <- (nearest_even_Z (2 ^ 53)).
  apply nearest_even_mono.
  apply Qle_shift_div_r; [apply pow2_pos |].
  rewrite <- (pow2_Z 53) by lia. rewrite <- pow2_add.
  apply Qlt_le_weak. eapply Qlt_le_trans; [exact U |].
  apply pow2_le. unfold cexp. lia.
Qed.

Lemma round_pos_idempotent (x : Q) : 0 <= x -> round_pos (round_pos x) == round_pos x.
Proof.
  intros Hx. destruct (Qlt_le_dec 0 x) as [Px | Zx].
  - pose proof (nearest_scaled_upper x Px) as Um.
    assert (Lm : (0 <= nearest_even (x / pow2 (cexp x)))%Z).
    { apply nearest_even_nonneg. apply Qle_shift_div_l; [apply pow2_pos | lra]. }
    destruct (Z.eq_dec (nearest_even (x / pow2 (cexp x))) 0) as [E | N].
    + assert (Z0 : round_pos x == 0).
      { unfold round_pos. rewrite E. change (inject_Z 0) with 0. ring. }
      rewrite (round_pos_zero _ Z0). now symmetry.
    + unfold round_pos at 2 3. apply round_pos_fix; [lia | unfold cexp; lia].
  - assert (Z0 : round_pos x == 0) by (apply round_pos_zero; lra).
    rewrite (round_pos_zero _ Z0). now symmetry.
Qed.

Lemma round_Q_nonneg (x : Q) : 0 <= x -> round_Q x = round_pos x.
Proof. intros H. unfold round_Q. apply Qle_bool_iff in H. now rewrite H. Qed.

Lemma round_Q_neg (x : Q) : x < 0 -> round_Q x = - round_pos (- x).
Proof.
  intros H. unfold round_Q.
  destruct (Qle_bool 0 x) eqn:E; [| reflexivity].
  apply Qle_bool_iff in E. lra.
Qed.

Lemma round_Q_mono (x y : Q) : x <= y -> round_Q x <= round_Q y.
Proof.
  intros L. destruct (Qlt_le_dec x 0) as [Nx | Px].
  - rewrite (round_Q_neg x Nx).
    assert (Rx : 0 <= round_pos (- x)) by (apply round_pos_nonneg; lra).
    destruct (Qlt_le_dec y 0) as [Ny | Py].
    + rewrite (round_Q_neg y Ny).
      assert (M : round_pos (- y) <= round_pos (- x)) by (apply round_pos_mono; lra).
      lra.
    + rewrite (round_Q_nonneg y Py).
      assert (Ry : 0 <= round_pos y) by (now apply round_pos_nonneg).
      lra.
  - rewrite (round_Q_nonneg x Px), (round_Q_nonneg y) by lra.
    now apply round_pos_mono.
Qed.

Lemma round_Q_comp (x y : Q) : x == y -> round_Q x == round_Q y.
Proof.
  intros E. destruct (Qlt_le_dec x 0) as [Nx | Px].
  - rewrite (round_Q_neg x Nx), (round_Q_neg y) by lra.
    apply Qopp_comp. apply round_pos_comp; [lra | now rewrite E].
  - rewrite (round_Q_nonneg x Px), (round_Q_nonneg y) by lra.
    now apply round_pos_comp.
Qed.

Lemma round_Q_opp (x : Q) : round_Q (- x) == - round_Q x.
Proof.
  destruct (Qlt_le_dec x 0) as [Nx | Px].
  - rewrite (round_Q_neg x Nx), (round_Q_nonneg (- x)) by lra. ring.
  - destruct (Qlt_le_dec 0 x) as [P | Z0].
    + rewrite (round_Q_nonneg x Px), (round_Q_neg (- x)) by lra.
      apply Qopp_comp. apply round_pos_comp; [lra | ring].
    + rewrite (round_Q_nonneg x Px), (round_Q_nonneg (- x)) by lra.
      rewrite (round_pos_zero x), (round_pos_zero (- x)) by lra. ring.
Qed.

Lemma round_Q_idempotent (x : Q) : round_Q (round_Q x) == round_Q x.
Proof.
  destruct (Qlt_le_dec x 0) as [Nx | Px].
  - rewrite (round_Q_neg x Nx).
    assert (Rx : 0 <= round_pos (- x)) by (apply round_pos_nonneg; lra).
    rewrite round_Q_opp. apply Qopp_comp.
    rewrite (round_Q_nonneg _ Rx). apply round_pos_idempotent. lra.
  - rewrite (round_Q_nonneg x Px).
    rewrite (round_Q_nonneg (round_pos x)) by (now apply round_pos_nonneg).
    now apply round_pos_idempotent.
Qed.

End Binary64Rounding.

Lemma Q2Qc_eq (a b : Q) : (a == b)%Q -> Q2Qc a = Q2Qc b.
Proof. intros E. now apply Q2Qc_eq_iff. Qed.

Lemma Q2Qc_opp (r : Q) : Q2Qc (- r) = (- Q2Qc r)%Qc.
Proof.
  unfold Qcopp. apply Q2Qc_eq. unfold Q2Qc. cbn [this]. now rewrite Qred_correct.
Qed.

Lemma binary64_round_cases (x : Qc) :
  (binary64_round x = PInf /\ (pow2 1024 <= round_Q x)%Q)
  \/ (binary64_round x = NInf /\ (round_Q x <= - pow2 1024)%Q)
  \/ (binary64_round x = Fin (Q2Qc (round_Q x))
      /\ (- pow2 1024 < round_Q x)%Q /\ (round_Q x < pow2 1024)%Q).
Proof.
  unfold binary64_round.
  destruct (Qle_bool (pow2 1024) (round_Q x)) eqn:E1.
  - left. split; [reflexivity | now apply Qle_bool_iff].
  - destruct (Qle_bool (round_Q x) (- pow2 1024)) eqn:E2.
    + right; left. split; [reflexivity | now apply Qle_bool_iff].
    + right; right. split; [reflexivity |]. split.
      * apply Qnot_le_lt. intros L. apply Qle_bool_iff in L. congruence.
      * apply Qnot_le_lt. intros L. apply Qle_bool_iff in L. congruence.
Qed.

Lemma binary64_rounding : Rounding binary64_round.
Proof.
  constructor.
  - intros x y L.
    assert (M : (round_Q x <= round_Q y)%Q) by (apply round_Q_mono; exact L).
    pose proof (pow2_pos 1024) as P.
    destruct (binary64_round_cases x) as [[-> Hx] | [[-> Hx] | [-> [Hx Hx']]]];
      destruct (binary64_round_cases y) as [[-> Hy] | [[-> Hy] | [-> [Hy Hy']]]];
      try reflexivity; try (exfalso; lra).
    apply num_le_Fin. unfold Qcle, Q2Qc. cbn [this]. now rewrite !Qred_correct.
  - intros x.
    assert (E : (round_Q (- x)%Qc == - round_Q x)%Q).
    { rewrite <- round_Q_opp. apply round_Q_comp.
      unfold Qcopp, Q2Qc. cbn [this]. apply Qred_correct. }
    pose proof (pow2_pos 1024) as P.
    destruct (binary64_round_cases x) as [[-> Hx] | [[-> Hx] | [-> [Hx Hx']]]];
      destruct (binary64_round_cases (- x)%Qc) as [[-> Hy] | [[-> Hy] | [-> [Hy Hy']]]];
      try reflexivity; try (exfalso; lra).
    cbn [num_neg]. f_equal. rewrite <- Q2Qc_opp. now apply Q2Qc_eq.
  - intros x y H.
    pose proof (pow2_pos 1024) as P.
    destruct (binary64_round_cases x) as [[E Hx] | [[E Hx] | [E [Hx Hx']]]];
      rewrite E in H; try discriminate.
    injection H as <-.
    assert (I : (round_Q (Q2Qc (round_Q x)) == round_Q x)%Q).
    { rewrite <- (round_Q_idempotent x) at 2. apply round_Q_comp.
      unfold Q2Qc. cbn [this]. apply Qred_correct. }
    destruct (binary64_round_cases (Q2Qc (round_Q x))) as [[_ Hy] | [[_ Hy] | [-> _]]];
      try (exfalso; lra).
    f_equal. now apply Q2Qc_eq.
  - apply number_eqb_eq. vm_compute. reflexivity.
  - apply number_eqb_eq. vm_compute. reflexivity.
Qed.

(** Whole numbers up to [2^53] are machine numbers. *)
Lemma binary64_index_representable (n : nat) :
  (Z.of_nat n <= 2 ^ 53)%Z -> representable binary64_round (Qc_of_nat n).
Proof.
  intros H. unfold representable.
  assert (N : (0 <= inject_Z (Z.of_nat n))%Q).
  { change 0%Q with (inject_Z 0). rewrite <- Zle_Qle. lia. }
  assert (E : (round_Q (Qc_of_nat n) == inject_Z (Z.of_nat n))%Q).
  { assert (C : (this (Qc_of_nat n) == inject_Z (Z.of_nat n))%Q).
    { unfold Qc_of_nat, Q2Qc. cbn [this]. apply Qred_correct. }
    rewrite (round_Q_comp _ _ C), (round_Q_nonneg _ N).
    destruct (Z.eq_dec (Z.of_nat n) 0) as [Z0 | N0].
    - rewrite Z0. apply round_pos_zero. reflexivity.
    - assert (M : (inject_Z (Z.of_nat n) == inject_Z (Z.of_nat n) * pow2 0)%Q).
      { change (pow2 0) with 1%Q. ring. }
      rewrite (round_pos_comp _ _ N M).
      rewrite round_pos_fix by lia. now symmetry. }
  assert (B : (inject_Z (Z.of_nat n) <= inject_Z (2 ^ 53))%Q) by (now rewrite <- Zle_Qle).
  assert (P : (inject_Z (2 ^ 53) < pow2 1024)%Q).
  { rewrite <- (pow2_Z 53) by lia. apply pow2_lt. lia. }
  pose proof (pow2_pos 1024) as P0.
  destruct (binary64_round_cases (Qc_of_nat n)) as [[_ Hy] | [[_ Hy] | [-> _]]];
    try (exfalso; lra).
  f_equal. unfold Qc_of_nat. now apply Q2Qc_eq.
Qed.

(** C10, amended.  In correctly rounded arithmetic, for cash flows and an
    [initialInvestment > 0] that are machine numbers (and a sequence short
    enough for its indices to be machine numbers), a non-null payback period
    [p] is the rounded [i + fraction] for the crossing year [i] inside the
    sequence and an interpolated fraction with [0 <= fraction <= 1]; hence
    [0 <= p <= cashFlows.length].  The fraction can be [0], and [p] with
    it. *)
Theorem calculatePaybackPeriod_bounds_rounded
    (rnd : Qc -> number) (cashFlows : list Qc) (initialInvestment : Qc) (p : number) :
  Rounding rnd ->
  Forall (representable rnd) cashFlows ->
  representable rnd initialInvestment ->
  (forall n : nat, n <= List.length cashFlows -> representable rnd (Qc_of_nat n)) ->
  (0 < initialInvestment)%Qc ->
  Generic.calculatePaybackPeriod (roundedArithmetic rnd)
    (map Fin cashFlows) (Fin initialInvestment) = Some p ->
  (exists (i : nat) (fraction : Qc),
      Generic.crossingYear (roundedArithmetic rnd)
        (map Fin cashFlows) (Fin initialInvestment) = Some i
      /\ i < List.length cashFlows
      /\ p = rounded rnd (of_nat i + Fin fraction)
      /\ (0 <= fraction)%Qc /\ (fraction <= 1)%Qc)
  /\ num_le zero p = true
  /\ num_le p (of_nat (List.length cashFlows)) = true.
Proof.
  intros R HF RI Hidx HI H. unfold Generic.calculatePaybackPeriod in H.
  pose proof (stillBelow_investment rnd R initialInvestment RI HI) as Hb.
  destruct (rounded_payback_loop_bounds rnd R cashFlows HF 0 _ p Hb H)
    as (k & fraction & Hk & Hc & Hp & Hf0 & Hf1).
  cbn [Nat.add] in *.
  destruct (rounded_index_fraction rnd R k fraction) as [L0 L1]; trivial.
  { apply Hidx. lia. }
  { apply Hidx. lia. }
  rewrite <- Hp in L0, L1.
  split; [| split].
  - exists k, fraction. rewrite generic_crossingYear_loop. repeat split; assumption.
  - apply num_le_trans with (of_nat k); [| exact L0].
    apply num_le_Fin. apply Qc_of_nat_nonneg.
  - apply num_le_trans with (of_nat (S k)); [exact L1 |].
    apply num_le_Fin. now apply Qc_of_nat_le.
Qed.

Lemma calculatePaybackPeriod_bounds_rounded_witness :
  Generic.calculatePaybackPeriod (roundedArithmetic binary64_round)
    (map Fin [binary64_of 1e20]) (Fin (binary64_of 0.1)) = Some (Fin 0%Qc)
  /\ num_le zero (Fin 0%Qc) = true
  /\ num_le (Fin 0%Qc) (of_nat (List.length [binary64_of 1e20])) = true.
Proof.
  assert (H : Generic.calculatePaybackPeriod (roundedArithmetic binary64_round)
                (map Fin [binary64_of 1e20]) (Fin (binary64_of 0.1))
              = Some (Fin 0%Qc)).
  { apply Some_number_eq. vm_compute. reflexivity. }
  split; [exact H |].
  apply (calculatePaybackPeriod_bounds_rounded binary64_round
           [binary64_of 1e20] (binary64_of 0.1) (Fin 0%Qc)).
  - exact binary64_rounding.
  - apply Forall_cons; [apply number_eqb_eq; vm_compute; reflexivity | apply Forall_nil].
  - apply number_eqb_eq. vm_compute. reflexivity.
  - intros n Hn. apply binary64_index_representable. simpl in Hn. lia.
  - reflexivity.
  - exact H.
Defined.

(** C10 as stated fails in binary64: with the cash flow [1e20] and the
    investment [0.1 > 0] the calculator returns [0], which is not [> 0]; the
    interpolated fraction is [0]. *)
Lemma calculatePaybackPeriod_zero_in_binary64 :
  PrimFloat.ltb 0%float 0.1%float = true
  /\ Generic.calculatePaybackPeriod Binary64.arithmetic [1e20%float] 0.1%float
     = Some 0%float
  /\ PrimFloat.ltb 0%float 0%float = false.
Proof. repeat split; vm_compute; reflexivity. Qed.




(** On these inputs the calculator in rounded arithmetic, with the rounding
    to binary64, returns the numbers the kernel's binary64 returns; and a
    decimal literal denotes its rounding. *)
Example rounded_binary64_agree :
  Binary64.value 0.1%float = Fin (binary64_of 0.1)
  /\ Binary64.value 743.880000000001%float = Fin (binary64_of 743.880000000001)
  /\ option_map Binary64.value
       (Generic.calculatePaybackPeriod Binary64.arithmetic [1e20%float] 0.1%float)
     = Generic.calculatePaybackPeriod (roundedArithmetic binary64_round)
         (map Binary64.value [1e20%float]) (Binary64.value 0.1%float)
  /\ option_map Binary64.value
       (Generic.calculatePaybackPeriod Binary64.arithmetic
          [743.88%float; 743.54%float] 32.44%float)
     = Generic.calculatePaybackPeriod (roundedArithmetic binary64_round)
         (map Binary64.value [743.88%float; 743.54%float]) (Binary64.value 32.44%float)
  /\ option_map Binary64.value
       (Generic.calculatePaybackPeriod Binary64.arithmetic
          [743.880000000001%float; 743.54%float] 32.44%float)
     = Generic.calculatePaybackPeriod (roundedArithmetic binary64_round)
         (map Binary64.value [743.880000000001%float; 743.54%float])
         (Binary64.value 32.44%float).
Proof.
  repeat split; try (apply number_eqb_eq; vm_compute; reflexivity);
    match goal with
    | |- ?x = ?y =>
        assert (E : match x, y with
                    | Some a, Some b => number_eqb a b
                    | None, None => true
                    | _, _ => false
                    end = true) by (vm_compute; reflexivity);
        destruct x as [a |], y as [b |]; try discriminate; trivial;
        apply number_eqb_eq in E; now subst
    end.
Qed.

(** Raising the first year from 100 to 150 moves the payback from 1.75 to
    1.5 years, in binary64 as in exact arithmetic. *)
Example calculatePaybackPeriod_monotone_example :
  option_map (number_eqb (lit 1.5))
    (calculatePaybackPeriod (replace_at 0 (lit 150) [lit 100; lit 200; lit 300]) (lit 250))
  = Some true
  /\ Generic.calculatePaybackPeriod Binary64.arithmetic
       (replace_at 0 150%float [100%float; 200%float; 300%float]) 250%float
     = Some 1.5%float.
Proof. split; vm_compute; reflexivity. Qed.

(** ** NPV at the rate the IRR solver returns *)

Lemma calculateNPV_reduce (cashFlows : list number) (discountRate investment : number) :
  calculateNPV cashFlows discountRate investment
  = reduce_from (npvTerm discountRate) 0 cashFlows (- investment).
Proof. reflexivity. Qed.

(** C3, amended.  A rate [r] that the IRR solver returns for the sequence
    with [-initialInvestment] prepended met one of the solver's two
    tolerances: either the solver's own NPV at [r] - the NPV of the prepended
    sequence, every entry discounted from exponent 1 on - is below [1e-6] in
    absolute value, or [r] is the Newton update of a guess whose NPV was not
    within that tolerance and lies within [1e-6] of that guess.  Neither
    bounds the engine's NPV of the original sequence at [r]. *)
Theorem calculateIRR_returned_rate (cashFlows : list number) (initialInvestment r : number) :
  calculateIRR (- initialInvestment :: cashFlows) = Some r ->
  (num_abs (calculateNPV (- initialInvestment :: cashFlows) r zero) <? epsilon) = true
  \/ exists guess : number,
       (num_abs (calculateNPV (- initialInvestment :: cashFlows) guess zero) <? epsilon)
       = false
       /\ r = guess - calculateNPV (- initialInvestment :: cashFlows) guess zero
                      / derivativeNpv (- initialInvestment :: cashFlows) guess
       /\ (num_abs (r - guess) <? epsilon) = true.
Proof.
  intros H. apply calculateIRR_Some in H. destruct H as (k & _ & _ & E).
  destruct E as [[En ->] | (En & _ & Es & ->)].
  - left. exact En.
  - right. exists (guessAt (- initialInvestment :: cashFlows) k).
    split; [exact En |]. split; [reflexivity | exact Es].
Qed.

Lemma calculateIRR_returned_rate_witness :
  (num_abs (calculateNPV (- lit 100 :: [lit 110]) (lit 0.1) zero) <? epsilon) = true
  \/ exists guess : number,
       (num_abs (calculateNPV (- lit 100 :: [lit 110]) guess zero) <? epsilon) = false
       /\ lit 0.1 = guess - calculateNPV (- lit 100 :: [lit 110]) guess zero
                            / derivativeNpv (- lit 100 :: [lit 110]) guess
       /\ (num_abs (lit 0.1 - guess) <? epsilon) = true.
Proof.
  apply (calculateIRR_returned_rate [lit 110] (lit 100) (lit 0.1)).
  apply Some_number_eq. vm_compute. reflexivity.
Defined.

(** C3 as stated fails, in two ways.

    - Investment [1e10], one cash flow [11000001000]: the first Newton step
      moves the guess by less than [1e-6], so the solver returns the updated
      guess without testing its NPV (which is not below [1e-6] for the
      prepended sequence); the engine's NPV at that rate is about [82.6].
    - Investment [0], one cash flow [0.010015]: the solver leaves through its
      NPV test at the last iteration with the rate [99.1]; the prepended
      sequence is discounted one year more, and the engine's NPV of the
      original sequence at that rate is about [1.0005e-4]. *)
Lemma irr_npv_inconsistent :
  (exists r,
      calculateIRR (- lit 10000000000 :: [lit 11000001000]) = Some r
      /\ npvConverged (- lit 10000000000 :: [lit 11000001000]) r = false
      /\ num_le (num_abs (calculateNPV [lit 11000001000] r (lit 10000000000)))
                (lit 0.0001) = false
      /\ (lit 82 <? num_abs (calculateNPV [lit 11000001000] r (lit 10000000000))) = true)
  /\ (exists r,
        calculateIRR (- lit 0 :: [lit 0.010015]) = Some r
        /\ r = lit 99.1
        /\ npvConverged (- lit 0 :: [lit 0.010015]) r = true
        /\ num_le (num_abs (calculateNPV [lit 0.010015] r (lit 0))) (lit 0.0001) = false).
Proof.
  split.
  - eexists. split; [vm_compute; reflexivity |].
    repeat split; vm_compute; reflexivity.
  - exists (lit 99.1). split; [apply Some_number_eq; vm_compute; reflexivity |].
    repeat split; vm_compute; reflexivity.
Qed.

Lemma calculateIRR_null_iff_witness :
  calculateIRR [lit (-100)] = None
  /\ calculateIRR [lit (-100); lit 110] = Some (lit 0.1).
Proof.
  split.
  - apply (proj1 (calculateIRR_null_iff [lit (-100)])).
    left. exists 0. split; [lia |]. split; [intros j Hj; lia |].
    split; vm_compute; reflexivity.
  - apply (proj2 (calculateIRR_null_iff [lit (-100); lit 110])).
    exists 0. split; [lia |]. split; [intros j Hj; lia |].
    left. split; vm_compute; reflexivity.
Defined.

(** * Further properties of the code *)

(** ** Arithmetic with 0 and 1 *)

Lemma num_add_comm (x y : number) : x + y = y + x.
Proof. destruct x, y; simpl; trivial. f_equal. ring. Qed.

Lemma num_add_zero_r (x : number) : x + zero = x.
Proof. rewrite num_add_comm. apply zero_add. Qed.

Lemma num_mul_one_r (x : number) : x * one = x.
Proof.
  destruct x; simpl; trivial. f_equal. ring.
Qed.

Lemma num_div_one_r (x : number) : x / one = x.
Proof.
  destruct x; simpl; trivial. f_equal. field. apply Q_apart_0_1.
Qed.

(** ** NPV and the schedule *)

Lemma npv_fold_discounted (a : ProjectAssumptions) (n : nat) :
  forall (i : nat) (acc : number),
    reduce_from (npvTerm (discountRate a)) i
                (map cashFlow (map (cashFlowYear a) (seq i n))) acc
    = fold_left num_add
                (map discountedCashFlow (map (cashFlowYear a) (seq i n))) acc.
Proof.
  induction n as [| n IH]; intros i acc; [reflexivity |].
  cbn [seq map reduce_from fold_left]. rewrite IH. reflexivity.
Qed.

(** X1.  The NPV of the bundle is what adding the [discountedCashFlow]
    fields of the schedule to [-netProjectCost], one after the other in year
    order, gives - for every input: the schedule's discounting and
    [calculateNPV] agree year by year. *)
Theorem npv_is_sum_of_discountedCashFlow (a : ProjectAssumptions) :
  npv a
  = fold_left num_add (map discountedCashFlow (cashFlows a)) (- netProjectCost a).
Proof.
  unfold npv. rewrite calculateNPV_reduce.
  unfold cashFlowsOnly, cashFlows, array_from.
  apply npv_fold_discounted.
Qed.

Lemma npv_fold_rate_zero (l : list number) : forall (i : nat) (acc : number),
  reduce_from (npvTerm zero) i l acc = fold_left num_add l acc.
Proof.
  induction l as [| x l IH]; intros i acc; [reflexivity |].
  cbn [reduce_from fold_left]. rewrite IH. f_equal.
  unfold npvTerm. rewrite num_add_zero_r, num_pow_one. now rewrite num_div_one_r.
Qed.

(** X2.  At a discount rate of 0 nothing is discounted: the engine's NPV is
    what adding the cash flows to [-initialInvestment], one after the other,
    gives - for every sequence and every investment ([1 + 0] is [1], every
    power of [1] is [1], and dividing by [1] changes nothing). *)
Theorem calculateNPV_at_rate_zero (cashFlows : list number) (initialInvestment : number) :
  calculateNPV cashFlows zero initialInvestment
  = fold_left num_add cashFlows (- initialInvestment).
Proof.
  rewrite calculateNPV_reduce. apply npv_fold_rate_zero.
Qed.

Example calculateNPV_at_rate_zero_example :
  calculateNPV [lit 400; lit 500; lit 600] zero (lit 1000) = lit 500.
Proof. num_compute. Qed.

(** ** NaN in the IRR solver *)

Lemma NaN_add_l (x : number) : NaN + x = NaN.
Proof. now destruct x. Qed.

Lemma NaN_add_r (x : number) : x + NaN = NaN.
Proof. now destruct x. Qed.

Lemma NaN_sub_l (x : number) : NaN - x = NaN.
Proof. now destruct x. Qed.

Lemma NaN_sub_r (x : number) : x - NaN = NaN.
Proof. now destruct x. Qed.

Lemma NaN_div_l (x : number) : NaN / x = NaN.
Proof. now destruct x. Qed.

Lemma NaN_div_r (x : number) : x / NaN = NaN.
Proof. now destruct x. Qed.

Lemma NaN_mul_r (x : number) : x * NaN = NaN.
Proof. now destruct x. Qed.

Lemma NaN_mul_l (x : number) : NaN * x = NaN.
Proof. now destruct x. Qed.

Lemma derivativeNpv_reduce (cashFlows : list number) (guess : number) :
  derivativeNpv cashFlows guess = reduce_from (derivTerm guess) 0 cashFlows zero.
Proof. reflexivity. Qed.

Lemma reduce_npv_NaN_acc (rate : number) (l : list number) : forall (i : nat),
  reduce_from (npvTerm rate) i l NaN = NaN.
Proof.
  induction l as [| x l IH]; intros i; [reflexivity |].
  cbn [reduce_from]. unfold npvTerm at 2. now rewrite NaN_add_l.
Qed.

Lemma reduce_deriv_NaN_acc (guess : number) (l : list number) : forall (i : nat),
  reduce_from (derivTerm guess) i l NaN = NaN.
Proof.
  induction l as [| x l IH]; intros i; [reflexivity |].
  cbn [reduce_from]. unfold derivTerm at 2. now rewrite NaN_sub_l.
Qed.

Lemma reduce_npv_NaN_in (rate : number) (l : list number) :
  In NaN l -> forall (i : nat) (acc : number), reduce_from (npvTerm rate) i l acc = NaN.
Proof.
  induction l as [| x l IH]; intros H i acc; [contradiction |].
  cbn [reduce_from]. destruct H as [-> | H].
  - unfold npvTerm at 2. rewrite NaN_div_l, NaN_add_r. apply reduce_npv_NaN_acc.
  - now apply IH.
Qed.

Lemma reduce_deriv_NaN_in (guess : number) (l : list number) :
  In NaN l -> forall (i : nat) (acc : number), reduce_from (derivTerm guess) i l acc = NaN.
Proof.
  induction l as [| x l IH]; intros H i acc; [contradiction |].
  cbn [reduce_from]. destruct H as [-> | H].
  - unfold derivTerm at 2. rewrite NaN_mul_r, NaN_div_l, NaN_sub_r.
    apply reduce_deriv_NaN_acc.
  - now apply IH.
Qed.

Lemma calculateNPV_NaN_in (cashFlows : list number) (rate investment : number) :
  In NaN cashFlows -> calculateNPV cashFlows rate investment = NaN.
Proof. intros H. rewrite calculateNPV_reduce. now apply reduce_npv_NaN_in. Qed.

(** With a NaN rate every discount factor is NaN. *)
Lemma reduce_npv_NaN_rate (l : list number) :
  l <> [] -> forall (i : nat) (acc : number), reduce_from (npvTerm NaN) i l acc = NaN.
Proof.
  destruct l as [| x l]; [congruence |]. intros _ i acc.
  cbn [reduce_from]. unfold npvTerm at 2.
  rewrite Nat.add_1_r. cbn [num_add one num_pow].
  rewrite NaN_div_r, NaN_add_r. apply reduce_npv_NaN_acc.
Qed.

Lemma reduce_deriv_NaN_rate (l : list number) :
  l <> [] -> forall (i : nat) (acc : number), reduce_from (derivTerm NaN) i l acc = NaN.
Proof.
  destruct l as [| x l]; [congruence |]. intros _ i acc.
  cbn [reduce_from]. unfold derivTerm at 2.
  rewrite Nat.add_1_r. cbn [num_add one num_pow].
  rewrite NaN_div_r, NaN_sub_r. apply reduce_deriv_NaN_acc.
Qed.

(** An iteration whose NPV and derivative are both NaN goes on, with a NaN
    guess. *)
Lemma continues_of_NaN (cashFlows : list number) (guess : number) :
  calculateNPV cashFlows guess zero = NaN ->
  derivativeNpv cashFlows guess = NaN ->
  continues cashFlows guess = true /\ newtonStep cashFlows guess = NaN.
Proof.
  intros Hn Hd.
  assert (S : newtonStep cashFlows guess = NaN).
  { unfold newtonStep. now rewrite Hn, Hd, NaN_sub_r. }
  split; [| exact S].
  unfold continues, npvConverged, zeroDerivative, stepConverged.
  now rewrite S, Hn, Hd.
Qed.

Lemma irr_loop_NaN_guess (cashFlows : list number) (n : nat) :
  cashFlows <> [] -> irr_loop cashFlows n NaN = None.
Proof.
  intros H. induction n as [| n IH]; [reflexivity |].
  destruct (continues_of_NaN cashFlows NaN) as [C S].
  - rewrite calculateNPV_reduce. now apply reduce_npv_NaN_rate.
  - rewrite derivativeNpv_reduce. now apply reduce_deriv_NaN_rate.
  - rewrite irr_loop_unfold. apply continues_true in C. destruct C as (-> & -> & ->).
    now rewrite S.
Qed.

Lemma irr_NaN_in (cashFlows : list number) :
  In NaN cashFlows -> calculateIRR cashFlows = None.
Proof.
  intros H. unfold calculateIRR.
  assert (N : cashFlows <> []) by (destruct cashFlows; [contradiction | discriminate]).
  destruct (continues_of_NaN cashFlows (lit 0.1)) as [C S].
  - now apply calculateNPV_NaN_in.
  - rewrite derivativeNpv_reduce. now apply reduce_deriv_NaN_in.
  - rewrite irr_loop_unfold. apply continues_true in C. destruct C as (-> & -> & ->).
    rewrite S. now apply irr_loop_NaN_guess.
Qed.

(** X4.  A NaN anywhere in the cash flows makes [calculateIRR] return null:
    NPV and derivative are NaN at every guess, no tolerance is ever met, and
    the iteration cap ends the loop. *)
Theorem calculateIRR_NaN_cash_flow (cashFlows : list number) :
  In NaN cashFlows -> calculateIRR cashFlows = None.
Proof. apply irr_NaN_in. Qed.

Lemma calculateIRR_NaN_cash_flow_witness :
  calculateIRR [lit (-1000); lit 400; NaN; lit 500] = None.
Proof.
  apply (calculateIRR_NaN_cash_flow [lit (-1000); lit 400; NaN; lit 500]).
  simpl. tauto.
Defined.

Lemma sub_finite (x y : number) : finite (x - y) -> finite x /\ finite y.
Proof. destruct x, y; simpl; tauto. Qed.

Lemma lt_epsilon_finite (x : number) : (num_abs x <? epsilon) = true -> finite x.
Proof. destruct x; simpl; trivial; discriminate. Qed.

Lemma calculateIRR_empty : calculateIRR [] = Some (lit 0.1).
Proof. apply Some_number_eq. vm_compute. reflexivity. Qed.

(** X5.  [calculateIRR] never returns NaN: a rate it returns either met the
    NPV tolerance (impossible at a NaN guess) or lies within [1e-6] of the
    previous guess (so it is a finite number). *)
Theorem calculateIRR_not_NaN (cashFlows : list number) (r : number) :
  calculateIRR cashFlows = Some r -> r <> NaN.
Proof.
  intros H. destruct cashFlows as [| c rest].
  - rewrite calculateIRR_empty in H. injection H as <-. discriminate.
  - apply calculateIRR_Some in H. destruct H as (k & _ & _ & E).
    destruct E as [[En ->] | (_ & _ & Es & ->)].
    + intros G. rewrite G in En. unfold npvConverged in En.
      rewrite calculateNPV_reduce, reduce_npv_NaN_rate in En; [discriminate |].
      discriminate.
    + apply lt_epsilon_finite, sub_finite in Es. destruct Es as [F _].
      intros G. now rewrite G in F.
Qed.

Lemma calculateIRR_not_NaN_witness :
  exists r, calculateIRR [lit (-100); lit 110] = Some r /\ r <> NaN.
Proof.
  exists (lit 0.1).
  assert (H : calculateIRR [lit (-100); lit 110] = Some (lit 0.1)).
  { apply Some_number_eq. vm_compute. reflexivity. }
  split; [exact H |].
  exact (calculateIRR_not_NaN [lit (-100); lit 110] (lit 0.1) H).
Defined.

(** X6.  A sequence of one element - the initial outlay alone, as for a
    schedule without operational years - gets the initial guess [0.1] when
    the outlay is negligible ([|c / 1.1| < 1e-6]) and null otherwise: the
    derivative has no term for index 0. *)
Theorem calculateIRR_single (c : number) :
  calculateIRR [c]
  = if num_abs (c / lit 1.1) <? epsilon then Some (lit 0.1) else None.
Proof.
  unfold calculateIRR. rewrite irr_loop_unfold.
  assert (N : calculateNPV [c] (lit 0.1) zero = c / lit 1.1).
  { unfold calculateNPV, reduce. cbn [reduce_from].
    replace (- zero) with zero by num_compute.
    replace (num_pow (one + lit 0.1) (0 + 1)) with (lit 1.1) by num_compute.
    apply zero_add. }
  unfold npvConverged. rewrite N.
  destruct (num_abs (c / lit 1.1) <? epsilon) eqn:E; [reflexivity |].
  destruct c as [q | | |].
  - assert (D : zeroDerivative [Fin q] (lit 0.1) = true).
    { unfold zeroDerivative, derivativeNpv, reduce. cbn [reduce_from].
      replace (num_pow (one + lit 0.1) (0 + 1)) with (lit 1.1) by num_compute.
      replace (of_nat 0 * Fin q) with zero.
      - vm_compute. reflexivity.
      - unfold of_nat, zero. cbn [num_mul]. f_equal.
        change (Qc_of_nat 0) with 0%Qc. ring. }
    now rewrite D.
  - vm_compute. reflexivity.
  - vm_compute. reflexivity.
  - vm_compute. reflexivity.
Qed.

Example calculateIRR_single_examples :
  calculateIRR [lit (-206000)] = None
  /\ calculateIRR [lit 0] = Some (lit 0.1)
  /\ calculateIRR [] = Some (lit 0.1).
Proof.
  repeat split; try (apply Some_number_eq); vm_compute; reflexivity.
Qed.

(** ** A loan at 0% APR *)

Lemma calculateLoanPayment_zero_rate_any (principal : number) (termYears : nat) :
  calculateLoanPayment principal (lit 0) termYears = NaN.
Proof.
  unfold calculateLoanPayment.
  replace (lit 0 / lit 12 / lit 100) with zero by num_compute.
  rewrite num_add_zero_r, num_pow_one, num_mul_one_r.
  replace (one - one) with zero by num_compute.
  destruct principal as [q | | |]; simpl; trivial.
  replace (q * 0)%Qc with 0%Qc by ring. now rewrite Qceqb_refl.
Qed.

Lemma loan_year_cashFlow_NaN (a : ProjectAssumptions) (y : nat) :
  financingType a = "loan"%string ->
  apr (loanDetails a) = lit 0 ->
  y < term (loanDetails a) ->
  cashFlow (cashFlowYear a y) = NaN.
Proof.
  intros Hf Ha Hy. unfold cashFlowYear. cbn [cashFlow].
  unfold isLoan. rewrite Hf, Ha. apply Nat.ltb_lt in Hy. rewrite Hy.
  cbn [String.eqb Ascii.eqb Bool.eqb andb].
  rewrite calculateLoanPayment_zero_rate_any.
  rewrite NaN_sub_r. apply NaN_sub_l.
Qed.

Lemma payback_loop_NaN_cum (l : list number) : forall (i : nat),
  payback_loop l i NaN = None.
Proof.
  induction l as [| x l IH]; intros i; [reflexivity |].
  cbn [payback_loop]. rewrite NaN_add_l. cbn [num_ge num_lt num_eq zero orb].
  apply IH.
Qed.

(** X7.  With loan financing at 0% APR, a term of at least one year and at
    least one operational year, the first year's cash flow is NaN (the
    amortization formula divides 0 by 0) and the bundle reports [npv], [irr]
    and [paybackPeriod] all as null, whatever the other inputs are. *)
Theorem zero_rate_loan_metrics_null (a : ProjectAssumptions) :
  financingType a = "loan"%string ->
  apr (loanDetails a) = lit 0 ->
  1 <= term (loanDetails a) ->
  1 <= operationalYears (evDetails a) ->
  get (financialMetrics a) "npv" = Some VNull
  /\ get (financialMetrics a) "irr" = Some VNull
  /\ get (financialMetrics a) "paybackPeriod" = Some VNull.
Proof.
  intros Hf Ha Ht Hn.
  assert (E : exists rest, map cashFlow (cashFlows a) = NaN :: rest).
  { unfold cashFlows, array_from.
    destruct (operationalYears (evDetails a)) as [| n]; [lia |].
    cbn [seq map]. rewrite (loan_year_cashFlow_NaN a 0 Hf Ha Ht). eauto. }
  destruct E as [rest E].
  assert (Hnpv : npv a = NaN).
  { unfold npv, cashFlowsOnly. rewrite E. apply calculateNPV_NaN_in. now left. }
  assert (Hirr : irr a = None).
  { unfold irr, cashFlowsOnly. rewrite E. apply irr_NaN_in. right. now left. }
  assert (Hpay : paybackPeriod a = None).
  { unfold paybackPeriod, cashFlowsOnly, calculatePaybackPeriod. rewrite E.
    cbn [payback_loop]. rewrite NaN_add_r. cbn [num_ge num_lt num_eq zero orb].
    apply payback_loop_NaN_cum. }
  repeat split.
  - change (get (financialMetrics a) "npv")
      with (Some (if negb (isNaN (npv a)) then VNum (npv a) else VNull)).
    now rewrite Hnpv.
  - change (get (financialMetrics a) "irr")
      with (Some (nullable (fun r => r * lit 100) (irr a))).
    now rewrite Hirr.
  - change (get (financialMetrics a) "paybackPeriod")
      with (Some (nullable (fun p => p) (paybackPeriod a))).
    now rewrite Hpay.
Qed.

Lemma zero_rate_loan_metrics_null_witness :
  get (financialMetrics zeroRateLoanAssumptions) "npv" = Some VNull
  /\ get (financialMetrics zeroRateLoanAssumptions) "irr" = Some VNull
  /\ get (financialMetrics zeroRateLoanAssumptions) "paybackPeriod" = Some VNull.
Proof.
  apply (zero_rate_loan_metrics_null zeroRateLoanAssumptions).
  - reflexivity.
  - reflexivity.
  - simpl. lia.
  - simpl. lia.
Defined.

(** ** Taxes *)

Lemma tax_nonneg (t : number) :
  ((if t >? zero then t * lit 0.21 else zero) >=? zero) = true.
Proof.
  destruct t as [q | | |]; try (vm_compute; reflexivity).
  unfold num_gt, zero. cbn [num_lt].
  destruct (Qcltb 0 q) eqn:E; [| vm_compute; reflexivity].
  apply Qcltb_lt in E. unfold lit. cbn [num_mul]. rewrite num_ge_Fin.
  apply Qcleb_le.
  replace 0%Qc with (0 * Q2Qc 0.21)%Qc by ring.
  apply Qcmult_le_compat_r; [now apply Qclt_le_weak | vm_compute; discriminate].
Qed.

(** X8.  The taxes of a year are never negative and never NaN, for every
    input: a loss (or a NaN taxable income) is taxed at 0, so a year's cash
    flow never exceeds its profit through a negative tax. *)
Theorem taxes_never_negative (a : ProjectAssumptions) (y : nat) :
  (taxes (cashFlowYear a y) >=? zero) = true.
Proof.
  unfold cashFlowYear. cbn [taxes]. apply tax_nonneg.
Qed.

(** ** Energy drawn from the panels and from the grid *)

Lemma Qcleb_refl (a : Qc) : Qcleb a a = true.
Proof. apply Qcleb_le, Qcle_refl. Qed.

Lemma num_min_below (x y : number) :
  isNaN (num_min x y) || (num_le (num_min x y) x && num_le (num_min x y) y) = true.
Proof.
  destruct x as [a | | |], y as [b | | |]; try reflexivity;
    cbn [num_min num_lt]; try (destruct (Qcltb b a) eqn:E);
    cbn [isNaN orb]; rewrite !num_le_cases, ?Qcleb_refl; try reflexivity.
  - apply Qcltb_lt, Qclt_le_weak, Qcleb_le in E. now rewrite E.
  - apply Qcltb_ge, Qcleb_le in E. now rewrite E.
Qed.

Lemma num_max_above (x y : number) :
  isNaN (num_max x y) || (num_le x (num_max x y) && num_le y (num_max x y)) = true.
Proof.
  destruct x as [a | | |], y as [b | | |]; try reflexivity;
    cbn [num_max num_lt]; try (destruct (Qcltb a b) eqn:E);
    cbn [isNaN orb]; rewrite !num_le_cases, ?Qcleb_refl; try reflexivity.
  - apply Qcltb_lt, Qclt_le_weak, Qcleb_le in E. now rewrite E.
  - apply Qcltb_ge, Qcleb_le in E. now rewrite E.
Qed.

(** X11.  Unless it is NaN, the solar energy used exceeds neither the annual
    production nor the share of the demand given by the offset; unless it is
    NaN, the grid energy is not negative and not below the computed rest of
    the demand - for every input, the infinities included. *)
Theorem energy_used_bounds (a : ProjectAssumptions) :
  isNaN (solarEnergyUsed a)
  || (num_le (solarEnergyUsed a) (annualProduction (solarSystem a))
      && num_le (solarEnergyUsed a) (evEnergyDemand a * (solarOffset a / lit 100)))
  = true
  /\ isNaN (gridEnergyUsed a)
     || (num_le zero (gridEnergyUsed a)
         && num_le (evEnergyDemand a - solarEnergyUsed a) (gridEnergyUsed a))
     = true.
Proof.
  split; [apply num_min_below | apply num_max_above].
Qed.

Example energy_used_default :
  solarEnergyUsed defaultAssumptions = lit 120000
  /\ gridEnergyUsed defaultAssumptions = lit 142800.
Proof. split; num_compute. Qed.

(** ** Input validation *)

(** X14.  For finite bounds [min <= max], [validateInput] returns a value
    inside [[min, max]] for every parsed number, NaN and the infinities
    included (NaN gives [min]), and returns a finite number that is already
    inside the bounds unchanged. *)
Theorem validateInput_clamps (num : number) (min max : Qc) :
  (min <= max)%Qc ->
  (exists v : Qc,
      validateInput num (Fin min) (Fin max) = Fin v /\ (min <= v)%Qc /\ (v <= max)%Qc)
  /\ (forall x : Qc, num = Fin x -> (min <= x)%Qc -> (x <= max)%Qc ->
        validateInput num (Fin min) (Fin max) = Fin x).
Proof.
  intros H. unfold validateInput.
  assert (Hmm : Qcltb min max = false -> max = min).
  { intros E. apply Qcltb_ge in E. now apply Qcle_antisym. }
  split.
  - destruct num as [x | | |]; cbn [isNaN num_min num_max num_lt].
    + destruct (Qcltb x max) eqn:E1.
      * apply Qcltb_lt in E1. cbn [num_lt].
        destruct (Qcltb min x) eqn:E2.
        { apply Qcltb_lt in E2. exists x.
          repeat split; trivial; now apply Qclt_le_weak. }
        { exists min. repeat split; trivial. apply Qcle_refl. }
      * cbn [num_lt]. destruct (Qcltb min max) eqn:E2.
        { exists max. repeat split; trivial. apply Qcle_refl. }
        { exists min. repeat split; trivial. apply Qcle_refl. }
    + cbn [num_lt]. destruct (Qcltb min max) eqn:E2.
      { exists max. repeat split; trivial. apply Qcle_refl. }
      { exists min. repeat split; trivial. apply Qcle_refl. }
    + exists min. repeat split; trivial. apply Qcle_refl.
    + exists min. repeat split; trivial. apply Qcle_refl.
  - intros x -> Hlo Hhi. cbn [isNaN num_min num_max num_lt].
    destruct (Qcltb x max) eqn:E1; cbn [num_lt].
    + destruct (Qcltb min x) eqn:E2; trivial.
      apply Qcltb_ge in E2. f_equal. now apply Qcle_antisym.
    + apply Qcltb_ge in E1. assert (max = x) by now apply Qcle_antisym. subst x.
      destruct (Qcltb min max) eqn:E2; trivial.
      f_equal. symmetry. now apply Hmm.
Qed.

Lemma validateInput_clamps_witness :
  exists v : Qc,
    validateInput PInf (Fin (Q2Qc 1)) (Fin (Q2Qc 50)) = Fin v
    /\ (Q2Qc 1 <= v)%Qc /\ (v <= Q2Qc 50)%Qc.
Proof.
  apply (validateInput_clamps PInf (Q2Qc 1) (Q2Qc 50)).
  vm_compute. discriminate.
Defined.

Example validateInput_examples :
  validateInput NaN (lit 1) (lit 50) = lit 1
  /\ validateInput (lit 75) (lit 1) (lit 50) = lit 50
  /\ validateInput (lit 0) (lit 1) (lit 50) = lit 1
  /\ validateInput (lit 20) (lit 1) (lit 50) = lit 20.
Proof. repeat split; num_compute. Qed.

(** ** The number field's text normalisation *)

Lemma stripLeadingZeros_no_zero (s : string) :
  forall rest, stripLeadingZeros s <> String "0"%char rest.
Proof.
  induction s as [| c s IH]; intros rest; [discriminate |].
  destruct c as [[] [] [] [] [] [] [] []]; simpl; try discriminate.
  apply IH.
Qed.

Lemma stripLeadingZeros_fixed (s : string) :
  (forall rest, s <> String "0"%char rest) -> stripLeadingZeros s = s.
Proof.
  destruct s as [| c s]; [reflexivity |]. intros H.
  destruct c as [[] [] [] [] [] [] [] []]; simpl; trivial.
  now contradiction (H s).
Qed.

(** X15.  For a number field, the text written back has no leading zero
    unless it is exactly ["0"], and normalising it again changes nothing;
    for every other field type the text is passed through unchanged. *)
Theorem handleChange_normalises (type newValue : string) :
  (forall rest, handleChange "number" newValue = String "0"%char rest -> rest = ""%string)
  /\ handleChange type (handleChange type newValue) = handleChange type newValue
  /\ (type <> "number"%string -> handleChange type newValue = newValue).
Proof.
  split; [| split].
  - intros rest. unfold handleChange. cbn [String.eqb Ascii.eqb Bool.eqb andb].
    destruct (1 <? String.length newValue)%nat eqn:L.
    + destruct (String.eqb (stripLeadingZeros newValue) "") eqn:E.
      * now intros [= <-].
      * intros H. now apply stripLeadingZeros_no_zero in H.
    + apply Nat.ltb_ge in L. intros ->. destruct rest; [reflexivity |].
      simpl in L. lia.
  - unfold handleChange.
    destruct (String.eqb type "number") eqn:T; cbn [andb]; [| reflexivity].
    destruct (1 <? String.length newValue)%nat eqn:L; [| now rewrite L].
    destruct (String.eqb (stripLeadingZeros newValue) "") eqn:E.
    + reflexivity.
    + destruct (1 <? String.length (stripLeadingZeros newValue))%nat; [| reflexivity].
      rewrite (stripLeadingZeros_fixed _ (stripLeadingZeros_no_zero newValue)).
      now rewrite E.
  - intros H. unfold handleChange.
    apply String.eqb_neq in H. now rewrite H.
Qed.

Example handleChange_examples :
  handleChange "number" "007" = "7"%string
  /\ handleChange "number" "000" = "0"%string
  /\ handleChange "number" "0.5" = ".5"%string
  /\ handleChange "number" "0" = "0"%string
  /\ handleChange "text" "007" = "007"%string.
Proof. repeat split. Qed.

(** ** The sensitivity panel *)

(** X16.  In the adjusted metrics of the sensitivity panel, [irr], [npv] and
    [paybackPeriod] are null exactly when the baseline value is null, [0] or
    NaN, whatever the factor; at a factor of 1 every other baseline value,
    and [roi] always, is passed through unchanged. *)
Theorem adjustedMetrics_factor_one (m : SensitivityAnalysis.Metrics) (factor : number) :
  let adjusted := SensitivityAnalysis.adjustedMetrics m factor in
  let unit := SensitivityAnalysis.adjustedMetrics m one in
  let keep (x : option number) :=
    match x with
    | Some v => if truthy v then Some v else None
    | None => None
    end in
  (SensitivityAnalysis.irr adjusted = None
   <-> keep (SensitivityAnalysis.irr m) = None)
  /\ (SensitivityAnalysis.npv adjusted = None
      <-> keep (SensitivityAnalysis.npv m) = None)
  /\ (SensitivityAnalysis.paybackPeriod adjusted = None
      <-> keep (SensitivityAnalysis.paybackPeriod m) = None)
  /\ SensitivityAnalysis.irr unit = keep (SensitivityAnalysis.irr m)
  /\ SensitivityAnalysis.npv unit = keep (SensitivityAnalysis.npv m)
  /\ SensitivityAnalysis.paybackPeriod unit = keep (SensitivityAnalysis.paybackPeriod m)
  /\ SensitivityAnalysis.roi unit = SensitivityAnalysis.roi m.
Proof.
  destruct m as [i p n r]. cbn.
  unfold SensitivityAnalysis.whenTruthy.
  repeat split;
    try (destruct i as [v |]; [destruct (truthy v) |]; (discriminate || reflexivity));
    try (destruct n as [v |]; [destruct (truthy v) |]; (discriminate || reflexivity));
    try (destruct p as [v |]; [destruct (truthy v) |]; (discriminate || reflexivity)).
  - destruct i as [v |]; [| reflexivity]. now rewrite num_mul_one_r.
  - destruct n as [v |]; [| reflexivity]. now rewrite num_mul_one_r.
  - destruct p as [v |]; [| reflexivity]. now rewrite num_div_one_r.
  - apply num_mul_one_r.
Qed.

Example adjustedMetrics_zero_irr :
  SensitivityAnalysis.irr
    (SensitivityAnalysis.adjustedMetrics
       {| SensitivityAnalysis.irr := Some (lit 0);
          SensitivityAnalysis.paybackPeriod := Some (lit 4);
          SensitivityAnalysis.npv := Some (lit 1000);
          SensitivityAnalysis.roi := lit 12 |} (lit 1.2))
  = None.
Proof. reflexivity. Qed.

(** ** The two copies of the payback calculator *)

(** X17.  In every arithmetic, the earlier copy of [calculatePaybackPeriod]
    finds the same crossing year as the current one and returns
    [i + cumulative / cashFlows[i]] there, with the cumulative after the
    crossing year; it returns null in exactly the cases in which the
    current copy does. *)
Theorem payback_earlier_variant_crossing (A : Arithmetic)
    (cashFlows : list (num A)) (initialInvestment : num A) :
  Generic.EarlierVariant.calculatePaybackPeriod A cashFlows initialInvestment
  = Generic.earlierAtCrossing A cashFlows initialInvestment
  /\ (Generic.EarlierVariant.calculatePaybackPeriod A cashFlows initialInvestment = None
      <-> Generic.calculatePaybackPeriod A cashFlows initialInvestment = None).
Proof.
  unfold Generic.EarlierVariant.calculatePaybackPeriod, Generic.calculatePaybackPeriod,
    Generic.earlierAtCrossing, Generic.crossingYear, Generic.cumulativeAfter.
  rewrite generic_earlier_loop_crossing, generic_payback_loop_crossing.
  split.
  - now destruct (find _ _).
  - destruct (find _ _) as [k |]; [| tauto].
    destruct (nth_error cashFlows k); cbn [option_map]; split; congruence.
Qed.

(** On the cash flows [100, 200, 300] with the investment [250] the earlier
    copy gives [1 + 50 / 200] and the current one [1 + 150 / 200]. *)
Example payback_earlier_variant_example :
  Generic.EarlierVariant.calculatePaybackPeriod Binary64.arithmetic
    [100%float; 200%float; 300%float] 250%float = Some 1.25%float
  /\ Generic.calculatePaybackPeriod Binary64.arithmetic
       [100%float; 200%float; 300%float] 250%float = Some 1.75%float.
Proof. split; vm_compute; reflexivity. Qed.
